(** * mystic.search.Searcher: a shallow embedding and its properties

    The development follows [src/mystic/search.py].  The class [Searcher]
    drives repeated ensemble runs ("sprays"), memoizes every converged
    member into an archive keyed by its rounded coordinates, and stops on a
    retry rule measured by archive growth.

    Modelling decisions, stated once:
    - Python floats are the exact rationals they denote ([Qc], canonical
      fractions, so that [==] on floats is Leibniz equality).  NaN,
      infinities and signed zero are outside the model.
    - the archive (a klepto [dict_archive], i.e. a [dict]) is a
      [gmap (list Qc) Qc]; no property below depends on iteration order,
      and [data.values()] is the second projection of [map_to_list].
    - the ensemble solver, its nested solvers and the map are external:
      one run of [solver.Solve] is an oracle [Solve], indexed by the number
      of runs performed so far (the solvers draw random starting points).
    - [print] has no effect on the state and is left out.
    - loops that the source writes with [while] take a fuel argument. *)

From Stdlib Require Import ZArith QArith Qcanon Qround.
From stdpp Require Import gmap strings list fin_maps sorting.

Local Open Scope Z_scope.

(** ** Floats and [round] *)

(** Nearest integer, ties to the even neighbour. *)
Definition round_half_even (q : Q) : Z :=
  let f := Qfloor q in
  match Qcompare (q - inject_Z f) (1 # 2) with
  | Lt => f
  | Gt => f + 1
  | Eq => if Z.even f then f else f + 1
  end.

(** [round(x, n)] of Python 3 on a float: the multiple of [10^-n] nearest to
    [x], ties to even.  (Python 2 breaks ties away from zero; nothing below
    looks at a tie.) *)
Definition pyround (x : Qc) (n : Z) : Qc :=
  let p := Qpower 10 n in
  Q2Qc (inject_Z (round_half_even (x * p)) / p).

(** ** Exceptions and results *)

Inductive exn : Type :=
  | AttributeError
  | ValueError
  | RuntimeError (msg : string)
  | OtherError (msg : string).

Inductive res (A : Type) : Type :=
  | Ok (a : A)
  | Err (e : exn).
Arguments Ok {A} a.
Arguments Err {A} e.

(** What a call that contains a [while] loop does within a given fuel. *)
Inductive outcome (A : Type) : Type :=
  | Returned (a : A)
  | Raised (e : exn)
  | OutOfFuel.
Arguments Returned {A} a.
Arguments Raised {A} e.
Arguments OutOfFuel {A}.

(** ** Collaborators' data *)

Abbreviation coords := (list Qc).

(** A monitor; [_filename] is present on a logging monitor only. *)
Record Monitor : Type := mkMonitor {
  _filename : option string;
  mon_log : list (coords * Qc)
}.

(** A converged nested solver. *)
Record Seeker : Type := mkSeeker {
  bestSolution : coords;
  bestEnergy : Qc;
  seeker_stepmon : Monitor
}.

(** ** klepto's [inf_cache] around [memo]

    [klepto] is an external library.  [inf_cache] is its unbounded
    memoizing decorator: the positional arguments are rounded with
    [round(_, tol)] and form the key (the keyword [out] is in [ignore]);
    when the key is in the cache the stored result is returned and the
    function is not evaluated (a hit), otherwise the function's result is
    stored under the key (a miss).  [info().size] is [len(cache)]. *)

Record CacheInfo : Type := mkInfo {
  hit : nat;
  miss : nat;
  info_size : nat
}.

Record Memo : Type := mkMemo {
  cache : gmap coords Qc;
  hits : nat;
  misses : nat
}.

Definition rounded_args (tol : Z) (args : coords) : coords :=
  (λ j, pyround j tol) <$> args.

Definition memo_call (tol : Z) (m : Memo) (args : coords) (out : Qc) : Memo * Qc :=
  let key := rounded_args tol args in
  match cache m !! key with
  | Some result => (mkMemo (cache m) (S (hits m)) (misses m), result)
  | None => (mkMemo (<[key := out]> (cache m)) (hits m) (S (misses m)), out)
  end.

Definition info (m : Memo) : CacheInfo :=
  mkInfo (hits m) (misses m) (size (cache m)).

(** ** The searcher *)

Section Searcher.

(** Objectives and termination conditions are opaque to the searcher. *)
Context {Model Stop : Type}.

(** An ensemble solver (an instance of the [sprayer] class): its
    configuration, and after [Solve] its converged members. *)
Record Ensemble : Type := mkEnsemble {
  ens_ndim : nat;
  ens_npts : Z;
  ens_objective : option Model;
  ens_termination : option Stop;
  ens_stepmon : Monitor;
  ens_min : coords;
  ens_max : coords;
  ens_id : option Z;
  ens_allSolvers : list Seeker
}.

Record Searcher : Type := mkSearcher {
  archive : gmap coords Qc;
  traj : bool;
  disp : bool;
  npts : Z;
  retry : Z;
  tol : Z;
  memtol : Z;
  _allSolvers : list Ensemble;
  _inv : bool;
  solver : option Ensemble   (* unset until [_configure] has run *)
}.

(** [Searcher(npts, retry, tol, memtol, archive, traj, disp)] *)
Definition __init__ (npts retry tol memtol : Z)
    (archive : option (gmap coords Qc)) (traj disp : bool) : Searcher :=
  {| archive := default ∅ archive;
     traj := traj; disp := disp;
     npts := npts; retry := retry; tol := tol; memtol := memtol;
     _allSolvers := []; _inv := false; solver := None |}.

(** The external world: the [k]-th run of [solver.Solve] on a configured
    copy yields that copy's converged members, in order. *)
Variable Solve : nat → Ensemble → list Seeker.

(** [mystic.munge.read_trajectories], which reads the (step, param, cost)
    columns from a log file given by name or from a monitor; it is not part
    of [search.py] and stays a parameter. *)
Inductive traj_source : Type :=
  | FromFile (filename : string)
  | FromMonitor (mon : Monitor).

Abbreviation trajectories := (list Z * list coords * list Qc)%type.

Variable read_trajectories : traj_source → res trajectories.

(** *** [_memoize] *)

Definition sign (inv : bool) : Qc := if inv then (- 1)%Qc else 1%Qc.

Definition _memoize (self : Searcher) (solver : Ensemble) (tol : Z) : Memo :=
  let l := sign (_inv self) in
  fold_left
    (λ memo _solver,
       let bestSol := bestSolution _solver in
       let bestRes := bestEnergy _solver in
       fst (memo_call tol memo bestSol (l * bestRes)%Qc))
    (ens_allSolvers solver)
    (mkMemo (archive self) 0 0).

(** *** [_configure] *)

Definition _configure (self : Searcher) (model : Model)
    (bounds : list (Qc * Qc)) (stop : option Stop) (monitor : option Monitor)
  : res Searcher :=
  let monitor := default (mkMonitor None []) monitor in
  let ndim := length bounds in
  (* [_min, _max = zip( *bounds )] cannot unpack when [bounds] is empty *)
  match bounds with
  | [] => Err ValueError
  | _ =>
      let _min := fst <$> bounds in
      let _max := snd <$> bounds in
      let s := {| ens_ndim := ndim; ens_npts := npts self;
                  ens_objective := Some model; ens_termination := stop;
                  ens_stepmon := monitor; ens_min := _min; ens_max := _max;
                  ens_id := None; ens_allSolvers := [] |} in
      Ok (mkSearcher (archive self) (traj self) (disp self) (npts self)
            (retry self) (tol self) (memtol self) (_allSolvers self)
            (_inv self) (Some s))
  end.

(** *** [_solve] and [_search]

    [k] counts the runs of [Solve] so far.  [_solve] works on a copy of
    [self.solver], an attribute that exists once [_configure] has run. *)

Definition set_id (id : Z) (e : Ensemble) : Ensemble :=
  mkEnsemble (ens_ndim e) (ens_npts e) (ens_objective e) (ens_termination e)
    (ens_stepmon e) (ens_min e) (ens_max e) (Some id) (ens_allSolvers e).

Definition set_members (l : list Seeker) (e : Ensemble) : Ensemble :=
  mkEnsemble (ens_ndim e) (ens_npts e) (ens_objective e) (ens_termination e)
    (ens_stepmon e) (ens_min e) (ens_max e) (ens_id e) l.

Definition _solve (self : Searcher) (k : nat) (id : Z) : res Ensemble :=
  match solver self with
  | None => Err AttributeError
  | Some configured =>
      let solver := set_id id configured in
      Ok (set_members (Solve k solver) solver)
  end.

Definition _search (self : Searcher) (k : nat) (sid : Z)
  : res (Searcher * nat * Z * Z) :=
  match _solve self k sid with
  | Err e => Err e
  | Ok sprayed =>
      let hist := if traj self then _allSolvers self ++ [sprayed]
                  else _allSolvers self in
      let sid := sid + Z.of_nat (length (ens_allSolvers sprayed)) in
      let memo := _memoize self sprayed (memtol self) in
      let size := Z.of_nat (info_size (info memo)) in
      Ok (mkSearcher (cache memo) (traj self) (disp self) (npts self)
            (retry self) (tol self) (memtol self) hist (_inv self)
            (solver self), S k, sid, size)
  end.

Definition UseTrajectories (self : Searcher) (traj : bool) : Searcher :=
  mkSearcher (archive self) traj (disp self) (npts self) (retry self)
    (tol self) (memtol self) (_allSolvers self) (_inv self) (solver self).

Definition Verbose (self : Searcher) (disp : bool) : Searcher :=
  mkSearcher (archive self) (traj self) disp (npts self) (retry self)
    (tol self) (memtol self) (_allSolvers self) (_inv self) (solver self).

(** *** [Search]

    What one outer round did, kept as a ghost log: the archive size at its
    start, the size reported by each spray in order, the size when the inner
    loop was left, and the counter after the round. *)
Record Round : Type := mkRound {
  osize : Z;
  sprays : list Z;
  rsize : Z;
  rcount : Z
}.

(** [while size > _size: _size = size; sid, size = self._search(sid)] *)
Fixpoint inner_loop (fuel : nat) (self : Searcher) (k : nat) (sid _size size : Z)
  : outcome (Searcher * nat * Z * Z * list Z) :=
  if bool_decide (size > _size) then
    match fuel with
    | O => OutOfFuel
    | S fuel =>
        let _size := size in
        match _search self k sid with
        | Err e => Raised e
        | Ok (self, k, sid, size) =>
            match inner_loop fuel self k sid _size size with
            | Returned (self, k, sid, size', log) =>
                Returned (self, k, sid, size', size :: log)
            | Raised e => Raised e
            | OutOfFuel => OutOfFuel
            end
        end
    end
  else Returned (self, k, sid, size, []).

(** [while self.retry > count: ...] *)
Fixpoint outer_loop (fuel : nat) (self : Searcher) (k : nat) (sid count : Z)
  : outcome (Searcher * nat * list Round) :=
  if bool_decide (retry self > count) then
    match fuel with
    | O => OutOfFuel
    | S fuel =>
        let _size := -1 in
        let osize := Z.of_nat (size (archive self)) in
        let size := osize in
        match inner_loop fuel self k sid _size size with
        | Returned (self, k, sid, size, log) =>
            let count := if bool_decide (size = osize) then count + 1 else 0 in
            match outer_loop fuel self k sid count with
            | Returned (self, k, rounds) =>
                Returned (self, k, mkRound osize log size count :: rounds)
            | Raised e => Raised e
            | OutOfFuel => OutOfFuel
            end
        | Raised e => Raised e
        | OutOfFuel => OutOfFuel
        end
    end
  else Returned (self, k, []).

Definition Search (fuel : nat) (self : Searcher) (k : nat) (model : Model)
    (bounds : list (Qc * Qc)) (stop : option Stop) (monitor : option Monitor)
    (traj' disp' : option bool) : outcome (Searcher * nat * list Round) :=
  let self := UseTrajectories self (default (traj self) traj') in
  let self := Verbose self (default (disp self) disp') in
  match _configure self model bounds stop monitor with
  | Err e => Raised e
  | Ok self =>
      let count := if bool_decide (retry self ≠ 0) then 0 else -1 in
      let sid := 0 in
      outer_loop fuel self k sid count
  end.

(** *** [Reset] *)

Definition Reset (self : Searcher) (archive' : option (gmap coords Qc))
    (inv : option bool) : Searcher :=
  mkSearcher (default ∅ archive') (traj self) (disp self) (npts self)
    (retry self) (tol self) (memtol self) [] (default (_inv self) inv)
    (solver self).

(** *** [Minima] *)

(** Python's [min] and [max] of a sequence: the first extreme element, and
    [ValueError] on an empty one. *)
Definition py_min (l : list Qc) : res Qc :=
  match l with
  | [] => Err ValueError
  | x :: l => Ok (fold_left (λ best y, if bool_decide (y < best)%Qc then y else best) l x)
  end.

Definition py_max (l : list Qc) : res Qc :=
  match l with
  | [] => Err ValueError
  | x :: l => Ok (fold_left (λ best y, if bool_decide (best < y)%Qc then y else best) l x)
  end.

Definition Minima (self : Searcher) (tol' : option Z) : res (gmap coords Qc) :=
  let tol := default (tol self) tol' in
  let data := archive self in
  let _min := if _inv self then py_max else py_min in
  match _min (map_to_list data).*2 with
  | Err e => Err e
  | Ok _min =>
      Ok (filter (λ kv, pyround kv.2 tol = pyround _min tol) data)
  end.

(** *** [Trajectories] *)

Definition usage_msg : string := "a LoggingMonitor or UseTrajectories is required".

Definition extend (acc : trajectories) (values : trajectories) : trajectories :=
  (acc.1.1 ++ values.1.1, acc.1.2 ++ values.1.2, acc.2 ++ values.2).

Definition Trajectories (self : Searcher) : res trajectories :=
  if negb (traj self) then
    (* try: ... except AttributeError: raise RuntimeError(msg) *)
    match solver self with
    | None => Err (RuntimeError usage_msg)
    | Some s =>
        match _filename (ens_stepmon s) with
        | None => Err (RuntimeError usage_msg)
        | Some filename =>
            match read_trajectories (FromFile filename) with
            | Err AttributeError => Err (RuntimeError usage_msg)
            | Err e => Err e
            | Ok r => Ok r
            end
        end
    end
  else
    fold_left
      (λ acc seeker,
         match acc with
         | Err e => Err e
         | Ok acc =>
             match read_trajectories (FromMonitor (seeker_stepmon seeker)) with
             | Err e => Err e
             | Ok values => Ok (extend acc values)
             end
         end)
      (concat (ens_allSolvers <$> _allSolvers self))
      (Ok ([], [], [])).

End Searcher.

Arguments Ensemble : clear implicits.
Arguments Searcher : clear implicits.

(** ** Vocabulary of the statements *)

Abbreviation len self := (Z.of_nat (size (archive self))).

(** The canonical key of a converged solver at precision [tol]. *)
Abbreviation key_of tol s := (rounded_args tol (bestSolution s)).

(** One pass of the loop body of [_memoize]. *)
Definition memo_step (l : Qc) (tol : Z) (memo : Memo) (_solver : Seeker) : Memo :=
  (memo_call tol memo (bestSolution _solver) (l * bestEnergy _solver)%Qc).1.

(** [spray_chain s log]: starting from size [s], the sizes [log] reported by
    the sprays of one inner loop grow strictly until the last spray, which
    reports the size it found. *)
Inductive spray_chain : Z → list Z → Prop :=
  | chain_stop s : spray_chain s [s]
  | chain_grow s s' log : s < s' → spray_chain s' log → spray_chain s (s' :: log).

(** A round that left the archive at the size it started from. *)
Definition unproductive (r : Round) : Prop := rsize r = osize r.

Global Instance unproductive_dec r : Decision (unproductive r) :=
  Z.eq_dec (rsize r) (osize r).

(** Number of unproductive rounds at the head of a list, and at its end. *)
Fixpoint leading (rs : list Round) : nat :=
  match rs with
  | r :: rs => if decide (unproductive r) then S (leading rs) else O
  | [] => O
  end.

Definition trailing (rs : list Round) : nat := leading (reverse rs).

Definition count_after (c : Z) (rs : list Round) : Z :=
  fold_left (λ c r, if decide (unproductive r) then c + 1 else 0) rs c.

(** The rounds an outer loop with limit [R] performs from counter [c] and
    archive size [s]. *)
Inductive rounds_from (R : Z) : Z → Z → list Round → Prop :=
  | rounds_done c s : ¬ R > c → rounds_from R c s []
  | rounds_step c s r tr :
      R > c →
      osize r = s →
      spray_chain s (sprays r) →
      rsize r = List.last (sprays r) s →
      rcount r = (if decide (unproductive r) then c + 1 else 0) →
      rounds_from R (rcount r) (rsize r) tr →
      rounds_from R c s (r :: tr).

(** Every archive size seen during a call, in order. *)
Definition size_history (tr : list Round) : list Z :=
  concat ((λ r, osize r :: sprays r) <$> tr).

Definition rounds_of {Model Stop : Type}
    (o : outcome (Searcher Model Stop * nat * list Round)) : option (list Round) :=
  match o with
  | Returned (_, _, tr) => Some tr
  | _ => None
  end.

(** [e] is a stored value and no stored value is smaller (greater, when
    the searcher is inverted). *)
Definition extreme_of (inv : bool) (A : gmap coords Qc) (e : Qc) : Prop :=
  (∃ k, A !! k = Some e) ∧
  ∀ k v, A !! k = Some v → if inv then (v ≤ e)%Qc else (e ≤ v)%Qc.

(** The searcher is configured and every key it holds lies in [K]. *)
Definition bounded {Model Stop : Type} (K : gset coords) (mt : Z)
    (self : Searcher Model Stop) : Prop :=
  is_Some (solver self) ∧ memtol self = mt ∧ dom (archive self) ⊆ K.

(** ** Reports: [Values], [Coordinates], [_summarize] *)

(** [[v for v in vals if v not in new and not new.add(v)]]: the first
    occurrence of each element, in order; [new] is the set of those seen. *)
Fixpoint unique_from {A} `{Countable A} (new : gset A) (vals : list A) : list A :=
  match vals with
  | [] => []
  | v :: vals =>
      if decide (v ∈ new) then unique_from new vals
      else v :: unique_from ({[v]} ∪ new) vals
  end.

(** What [_summarize] prints: ["%s: %s (count=%s)"] with the name, the
    extreme of the minima and their number, then
    ["pts: %s (values=%s, size=%s)"] with the number of distinct keys, of
    distinct values and of keys. *)
Record Summary : Type := mkSummary {
  sum_name : string;
  sum_extreme : Qc;
  sum_count : nat;
  sum_pts : nat;
  sum_values : nat;
  sum_size : nat
}.

Section Reports.

Context {Model Stop : Type}.
Implicit Types (self : Searcher Model Stop).

Definition Values self (unique : bool) : list Qc :=
  let vals := (map_to_list (archive self)).*2 in
  if unique then unique_from ∅ vals else vals.

Definition Coordinates self (unique : bool) : list coords :=
  let keys := (map_to_list (archive self)).*1 in
  if unique then unique_from ∅ keys else keys.

Definition _summarize self : res Summary :=
  let keys := Coordinates self false in
  let vals := Values self false in
  match Minima self None with
  | Err e => Err e
  | Ok mins =>
      let name : string := if _inv self then "max" else "min" in
      let min := if _inv self then py_max else py_min in
      match min (map_to_list mins).*2 with
      | Err e => Err e
      | Ok x =>
          Ok (mkSummary name x (size mins)
                (size (list_to_set keys : gset coords))
                (size (list_to_set vals : gset Qc))
                (length keys))
      end
  end.

(** The ids a run of sprays hands out: each ensemble carries the id it was
    solved under, and the next id is advanced by its number of members. *)
Fixpoint consecutive_ids (sid : Z) (l : list (Ensemble Model Stop)) : Prop :=
  match l with
  | [] => True
  | e :: l =>
      ens_id e = Some sid ∧
      consecutive_ids (sid + Z.of_nat (length (ens_allSolvers e))) l
  end.

(** Everything of a searcher but its archive and its history. *)
Definition same_settings self self' : Prop :=
  traj self' = traj self ∧ disp self' = disp self ∧ npts self' = npts self ∧
  retry self' = retry self ∧ tol self' = tol self ∧
  memtol self' = memtol self ∧ _inv self' = _inv self ∧
  solver self' = solver self.

(** Every point a spray can find has its key in the archive already. *)
Definition converged (Solve : nat → Ensemble Model Stop → list Seeker) self : Prop :=
  ∀ j e s, s ∈ Solve j e → is_Some (archive self !! key_of (memtol self) s).

(** The same batch with every best value negated. *)
Definition negated (e : Ensemble Model Stop) : Ensemble Model Stop :=
  set_members
    ((λ s, mkSeeker (bestSolution s) (- bestEnergy s)%Qc (seeker_stepmon s)) <$>
       ens_allSolvers e) e.

End Reports.

(** ** A small scenario: one coordinate, three sprays *)

Module Demo.

Definition qc (n : Z) (d : positive) : Qc := Q2Qc (n # d).

Definition plain_monitor : Monitor := mkMonitor None [].

Definition seeker_at (x e : Qc) : Seeker := mkSeeker [x] e plain_monitor.

Definition ensemble (members : list Seeker) : Ensemble unit unit :=
  mkEnsemble 1 4 None None plain_monitor [] [] None members.

(** The first spray finds 0.125 and 0.1875, the second 0.125 again and 0.5,
    every later one 0.125 only. *)
Definition Solve (k : nat) (e : Ensemble unit unit) : list Seeker :=
  match k with
  | O => [seeker_at (qc 1 8) (qc 1 1); seeker_at (qc 3 16) (qc 2 1)]
  | 1%nat => [seeker_at (qc 1 8) (qc 5 1); seeker_at (qc 1 2) (qc 0 1)]
  | _ => [seeker_at (qc 1 8) (qc 7 1)]
  end.

Definition read (src : traj_source) : res (list Z * list coords * list Qc) :=
  Err (OtherError "no log").

Definition bounds : list (Qc * Qc) := [(qc (-10) 1, qc 10 1)].

Definition searcher (retry : Z) : Searcher unit unit :=
  __init__ 4 retry 8 1 None false false.

Definition stocked : Searcher unit unit :=
  __init__ 4 1 8 1
    (Some (<[ [qc 1 10] := qc 1 1 ]> (<[ [qc 1 5] := qc 2 1 ]> ∅))) false false.

Definition keys : gset coords := {[ [qc 1 10]; [qc 1 5]; [qc 1 2] ]}.

(** A searcher after [_configure] with the default monitor. *)
Definition configured : Searcher unit unit :=
  mkSearcher ∅ false false 4 1 8 1 [] false (Some (ensemble [])).

Definition run (retry : Z) : outcome (Searcher unit unit * nat * list Round) :=
  Search Solve 10 (searcher retry) 0 tt bounds None None None None.

(** A searcher that already holds every key the sprays can produce. *)
Definition settled : Searcher unit unit :=
  __init__ 4 2 8 1
    (Some (<[ [qc 1 10] := qc 1 1 ]>
             (<[ [qc 1 5] := qc 2 1 ]> (<[ [qc 1 2] := qc 0 1 ]> ∅))))
    false false.

(** A searcher that captured one spray of two members. *)
Definition traced : Searcher unit unit :=
  mkSearcher ∅ true false 4 1 8 1
    [ensemble [seeker_at (qc 1 8) (qc 1 1); seeker_at (qc 3 16) (qc 2 1)]]
    false (Some (ensemble [])).

(** A reader that finds one step in every monitor. *)
Definition read_one (src : traj_source) : res (list Z * list coords * list Qc) :=
  Ok ([0], [[qc 1 8]], [qc 1 1]).

End Demo.

(** ** Lists and round logs *)

Lemma last_default_irrel {A} (x d d' : A) l :
  List.last (x :: l) d = List.last (x :: l) d'.
Proof.
  revert x. induction l as [|y l IH]; intros x; [done|].
  change (List.last (y :: l) d = List.last (y :: l) d'). apply IH.
Qed.

Lemma last_cons_default {A} (x d : A) l : List.last (x :: l) d = List.last l x.
Proof. destruct l as [|y l]; [done|]. apply (last_default_irrel y d x l). Qed.

Lemma last_app_default {A} (l1 l2 : list A) d :
  List.last (l1 ++ l2) d = List.last l2 (List.last l1 d).
Proof.
  revert d. induction l1 as [|x l1 IH]; intros d; [done|].
  change ((x :: l1) ++ l2) with (x :: (l1 ++ l2)).
  by rewrite (last_cons_default x d (l1 ++ l2)), (last_cons_default x d l1), IH.
Qed.


Lemma spray_chain_sorted s log rest :
  spray_chain s log →
  Sorted Z.le (List.last log s :: rest) →
  Sorted Z.le (s :: log ++ rest).
Proof.
  induction 1 as [s|s s' log Hlt Hch IH]; intros Hrest.
  - simpl in *. constructor; [done|]. by constructor.
  - rewrite last_cons_default in Hrest. simpl.
    constructor; [by apply IH|]. constructor. lia.
Qed.

Lemma trailing_snoc rs r :
  trailing (rs ++ [r]) = if decide (unproductive r) then S (trailing rs) else O.
Proof. unfold trailing. by rewrite reverse_snoc. Qed.

Lemma count_after_snoc c rs r :
  count_after c (rs ++ [r]) =
    if decide (unproductive r) then count_after c rs + 1 else 0.
Proof. unfold count_after. by rewrite fold_left_app. Qed.

Lemma count_after_0 rs : count_after 0 rs = Z.of_nat (trailing rs).
Proof.
  induction rs as [|r rs IH] using rev_ind; [done|].
  rewrite count_after_snoc, trailing_snoc, IH. case_decide; lia.
Qed.

Lemma rounds_from_nonempty R c s tr :
  rounds_from R c s tr → R > c → tr ≠ [].
Proof. by inversion 1. Qed.

Lemma rounds_from_counts R c s tr :
  rounds_from R c s tr → 0 ≤ c →
  ∀ i r, tr !! i = Some r →
    rcount r = count_after c (take (S i) tr) ∧
    0 ≤ rcount r ≤ R ∧
    (rcount r = R ↔ S i = length tr).
Proof.
  induction 1 as [|c s r tr Hgt Hos Hch Hrs Hrc Hrest IH]; intros Hc i r' Hi; [done|].
  assert (0 ≤ rcount r ≤ R) as Hb by (rewrite Hrc; case_decide; lia).
  destruct i as [|i].
  - injection Hi as <-. split_and!; [|lia|lia|].
    + unfold count_after. simpl. by rewrite Hrc.
    + inversion Hrest; simplify_eq/=; lia.
  - destruct (IH ltac:(lia) i r' Hi) as (E & B & L). split_and!; [|lia|lia|].
    + rewrite E. unfold count_after at 2. simpl. by rewrite <- Hrc.
    + simpl. rewrite L. lia.
Qed.



Lemma rounds_from_sorted R c s tr :
  rounds_from R c s tr → Sorted Z.le (s :: size_history tr).
Proof.
  induction 1 as [|c s r tr Hgt Hos Hch Hrs Hrc Hrest IH].
  - by repeat constructor.
  - unfold size_history. rewrite fmap_cons. simpl. rewrite Hos.
    constructor; [|by constructor].
    apply spray_chain_sorted; [done|]. by rewrite <- Hrs.
Qed.

Lemma rounds_from_last R c s tr :
  rounds_from R c s tr →
  List.last (rsize <$> tr) s = List.last (size_history tr) s.
Proof.
  induction 1 as [|c s r tr Hgt Hos Hch Hrs Hrc Hrest IH]; [done|].
  rewrite fmap_cons, last_cons_default, IH.
  unfold size_history. rewrite fmap_cons.
  change (concat (?a :: ?b)) with (a ++ concat b).
  by rewrite last_app_default, last_cons_default, Hos, <- Hrs.
Qed.

(** With a limit of zero the counter starts at [-1]: one round, whatever
    it finds. *)
Lemma rounds_from_zero s tr :
  rounds_from 0 (-1) s tr →
  ∃ r, tr = [r] ∧ osize r = s ∧ spray_chain s (sprays r) ∧ rcount r = 0.
Proof.
  inversion 1 as [|c s' r tr' Hgt Hos Hch Hrs Hrc Hrest]; [lia|]. subst.
  assert (rcount r = 0) as Hr0 by (rewrite Hrc; case_decide; lia).
  exists r. split_and!; try done.
  rewrite Hr0 in Hrest. inversion Hrest; [done | lia].
Qed.

(** ** The memoizing cache *)

Lemma memo_call_cache tol m args out :
  cache (memo_call tol m args out).1 =
    match cache m !! rounded_args tol args with
    | Some _ => cache m
    | None => <[rounded_args tol args := out]> (cache m)
    end.
Proof. unfold memo_call. by destruct (cache m !! _). Qed.

Lemma memo_call_subseteq tol m args out :
  cache m ⊆ cache (memo_call tol m args out).1.
Proof.
  rewrite memo_call_cache.
  destruct (cache m !! _) eqn:E; [done | by apply insert_subseteq].
Qed.

Lemma memo_fold_subseteq l tol members m :
  cache m ⊆ cache (fold_left (memo_step l tol) members m).
Proof.
  revert m. induction members as [|s members IH]; intros m; simpl; [done|].
  etrans; [|apply IH]. apply memo_call_subseteq.
Qed.

Lemma memo_fold_lookup l tol members : ∀ m key,
  cache (fold_left (memo_step l tol) members m) !! key =
    match cache m !! key with
    | Some v => Some v
    | None => (λ s, (l * bestEnergy s.2)%Qc) <$>
                list_find (λ s, key_of tol s = key) members
    end.
Proof.
  induction members as [|s members IH]; intros m key; simpl.
  - by destruct (cache m !! key).
  - rewrite IH. unfold memo_step. rewrite memo_call_cache. simpl.
    destruct (cache m !! key_of tol s) eqn:Hs.
    + destruct (cache m !! key) eqn:Hk; [done|].
      case_decide as Heq; [congruence|].
      by destruct (list_find _ members) as [[]|].
    + destruct (decide (key_of tol s = key)) as [<-|Hne].
      * by rewrite lookup_insert_eq, Hs.
      * rewrite lookup_insert_ne by done.
        destruct (cache m !! key); [done|].
        by destruct (list_find _ members) as [[]|].
Qed.

Lemma memo_fold_present l tol members : ∀ m key,
  (∀ s, s ∈ members → key_of tol s = key) →
  is_Some (cache m !! key) →
  cache (fold_left (memo_step l tol) members m) = cache m.
Proof.
  induction members as [|s members IH]; intros m key Hall Hin; [done|].
  simpl. assert (cache (memo_step l tol m s) = cache m) as Hstep.
  { unfold memo_step. rewrite memo_call_cache.
    rewrite (Hall s) by (by left). by destruct Hin as [v ->]. }
  rewrite (IH _ key); [done | | by rewrite Hstep].
  intros s' Hs'. apply Hall. by right.
Qed.

Lemma memo_step_size l tol m s :
  (size (cache (memo_step l tol m s)) ≤ S (size (cache m)))%nat.
Proof.
  unfold memo_step. rewrite memo_call_cache.
  destruct (cache m !! _) eqn:E; [lia|]. by rewrite map_size_insert_None.
Qed.

Lemma memo_step_present l tol m s :
  is_Some (cache (memo_step l tol m s) !! key_of tol s).
Proof.
  unfold memo_step. rewrite memo_call_cache.
  destruct (cache m !! _) eqn:E; [by rewrite E|]. by rewrite lookup_insert_eq.
Qed.

Lemma memo_fold_dom l tol members : ∀ m (K : gset coords),
  (∀ s, s ∈ members → key_of tol s ∈ K) →
  dom (cache m) ⊆ K →
  dom (cache (fold_left (memo_step l tol) members m)) ⊆ K.
Proof.
  induction members as [|s members IH]; intros m K Hall Hm; [done|].
  simpl. apply IH; [intros s' Hs'; apply Hall; by right|].
  unfold memo_step. rewrite memo_call_cache.
  destruct (cache m !! _); [done|]. rewrite dom_insert.
  apply union_least; [|done]. apply singleton_subseteq_l, Hall. by left.
Qed.

(** ** Least and greatest stored value *)

Lemma fold_min_spec l x :
  let m := fold_left (λ best y : Qc, if bool_decide (y < best)%Qc then y else best) l x in
  m ∈ x :: l ∧ ∀ y, y ∈ x :: l → (m ≤ y)%Qc.
Proof.
  revert x. induction l as [|z l IH]; intros x; simpl.
  - split; [by left|]. intros y ->%list_elem_of_singleton. apply Qcle_refl.
  - destruct (IH (if bool_decide (z < x)%Qc then z else x)) as [Hin Hle].
    assert (∀ a b c : Qc, (a ≤ b → b ≤ c → a ≤ c)%Qc) as Htr
      by (intros a b c; apply Qcle_trans).
    rewrite elem_of_cons in Hin. setoid_rewrite elem_of_cons in Hle.
    rewrite !elem_of_cons. setoid_rewrite elem_of_cons. setoid_rewrite elem_of_cons.
    case_bool_decide as Hlt.
    + split; [destruct Hin as [->|?]; by auto|].
      intros y [->|[->|Hy]]; [|by auto..].
      apply (Htr _ z); [by auto | by apply Qclt_le_weak].
    + split; [destruct Hin as [->|?]; by auto|].
      intros y [->|[->|Hy]]; [by auto| |by auto].
      apply (Htr _ x); [by auto | by apply Qcnot_lt_le].
Qed.

Lemma fold_max_spec l x :
  let m := fold_left (λ best y : Qc, if bool_decide (best < y)%Qc then y else best) l x in
  m ∈ x :: l ∧ ∀ y, y ∈ x :: l → (y ≤ m)%Qc.
Proof.
  revert x. induction l as [|z l IH]; intros x; simpl.
  - split; [by left|]. intros y ->%list_elem_of_singleton. apply Qcle_refl.
  - destruct (IH (if bool_decide (x < z)%Qc then z else x)) as [Hin Hle].
    assert (∀ a b c : Qc, (a ≤ b → b ≤ c → a ≤ c)%Qc) as Htr
      by (intros a b c; apply Qcle_trans).
    rewrite elem_of_cons in Hin. setoid_rewrite elem_of_cons in Hle.
    rewrite !elem_of_cons. setoid_rewrite elem_of_cons. setoid_rewrite elem_of_cons.
    case_bool_decide as Hlt.
    + split; [destruct Hin as [->|?]; by auto|].
      intros y [->|[->|Hy]]; [|by auto..].
      apply (Htr _ z); [by apply Qclt_le_weak | by auto].
    + split; [destruct Hin as [->|?]; by auto|].
      intros y [->|[->|Hy]]; [by auto| |by auto].
      apply (Htr _ x); [by apply Qcnot_lt_le | by auto].
Qed.

Lemma py_min_Ok l :
  l ≠ [] → ∃ m, py_min l = Ok m ∧ m ∈ l ∧ ∀ y, y ∈ l → (m ≤ y)%Qc.
Proof.
  destruct l as [|x l]; [done|]. intros _. eexists; split; [done|].
  apply fold_min_spec.
Qed.

Lemma py_max_Ok l :
  l ≠ [] → ∃ m, py_max l = Ok m ∧ m ∈ l ∧ ∀ y, y ∈ l → (y ≤ m)%Qc.
Proof.
  destruct l as [|x l]; [done|]. intros _. eexists; split; [done|].
  apply fold_max_spec.
Qed.

Lemma elem_of_map_values (A : gmap coords Qc) v :
  v ∈ (map_to_list A).*2 ↔ ∃ k, A !! k = Some v.
Proof.
  rewrite list_elem_of_fmap. split.
  - intros ([k v'] & -> & Hkv). exists k. by apply elem_of_map_to_list.
  - intros [k Hk]. exists (k, v). split; [done|]. by apply elem_of_map_to_list.
Qed.

Lemma map_values_nil (A : gmap coords Qc) : (map_to_list A).*2 = [] ↔ A = ∅.
Proof. rewrite <- map_to_list_empty_iff. by destruct (map_to_list A). Qed.

(** ** The searcher's methods *)

Section Properties.

Context {Model Stop : Type}.
Variable Solve : nat → Ensemble Model Stop → list Seeker.
Variable read_trajectories : traj_source → res (list Z * list coords * list Qc).
Implicit Types (self : Searcher Model Stop) (e : Ensemble Model Stop).

Lemma _memoize_fold self e tol :
  _memoize self e tol =
    fold_left (memo_step (sign (_inv self)) tol) (ens_allSolvers e)
      (mkMemo (archive self) 0 0).
Proof. reflexivity. Qed.

Lemma _memoize_subseteq self e tol :
  archive self ⊆ cache (_memoize self e tol).
Proof.
  rewrite _memoize_fold. apply (memo_fold_subseteq _ _ _ (mkMemo _ _ _)).
Qed.

Lemma _search_Ok self k sid self' k' sid' sz :
  _search Solve self k sid = Ok (self', k', sid', sz) →
  archive self ⊆ archive self' ∧ sz = len self' ∧
  retry self' = retry self ∧ solver self' = solver self ∧ k' = S k.
Proof.
  unfold _search. destruct (_solve _ _ _ _) as [sprayed|]; [|done].
  intros [= <- <- <- <-]. simpl. split_and!; try done.
  apply _memoize_subseteq.
Qed.

Lemma inner_loop_S fuel self k sid _size size :
  inner_loop Solve (S fuel) self k sid _size size =
    if bool_decide (size > _size) then
      match _search Solve self k sid with
      | Err e => Raised e
      | Ok (self1, k1, sid1, size1) =>
          match inner_loop Solve fuel self1 k1 sid1 size size1 with
          | Returned (self2, k2, sid2, size2, log) =>
              Returned (self2, k2, sid2, size2, size1 :: log)
          | Raised e => Raised e
          | OutOfFuel => OutOfFuel
          end
      end
    else Returned (self, k, sid, size, []).
Proof. reflexivity. Qed.

Lemma outer_loop_S fuel self k sid c :
  outer_loop Solve (S fuel) self k sid c =
    if bool_decide (retry self > c) then
      match inner_loop Solve fuel self k sid (-1) (len self) with
      | Returned (self1, k1, sid1, size1, log) =>
          let c1 := if bool_decide (size1 = len self) then c + 1 else 0 in
          match outer_loop Solve fuel self1 k1 sid1 c1 with
          | Returned (self2, k2, rounds) =>
              Returned (self2, k2, mkRound (len self) log size1 c1 :: rounds)
          | Raised e => Raised e
          | OutOfFuel => OutOfFuel
          end
      | Raised e => Raised e
      | OutOfFuel => OutOfFuel
      end
    else Returned (self, k, []).
Proof. reflexivity. Qed.

Lemma inner_loop_Returned fuel : ∀ self k sid _size self' k' sid' size' log,
  inner_loop Solve fuel self k sid _size (len self) =
    Returned (self', k', sid', size', log) →
  archive self ⊆ archive self' ∧ size' = len self' ∧
  retry self' = retry self ∧ solver self' = solver self ∧
  k' = (k + length log)%nat ∧
  size' = List.last log (len self) ∧
  if bool_decide (len self > _size) then spray_chain (len self) log
  else log = [] ∧ self' = self.
Proof.
  induction fuel as [|fuel IH]; intros self k sid _size self' k' sid' size' log.
  - simpl. case_bool_decide; [done|].
    intros [= <- <- <- <- <-]. by split_and!; try done; try lia.
  - rewrite inner_loop_S.
    case_bool_decide as Hgt;
      [|intros [= <- <- <- <- <-]; by split_and!; try done; lia].
    destruct (_search _ _ _ _) as [[[[self1 k1] sid1] size1]|] eqn:Hs; [|done].
    apply _search_Ok in Hs as (Hsub & -> & Hr & Hsol & ->).
    destruct (inner_loop _ _ _ _ _ _ _)
      as [[[[[self2 k2] sid2] size2] log2]| |] eqn:Hi; try done.
    intros [= <- <- <- <- <-].
    apply IH in Hi as (Hsub2 & -> & Hr2 & Hsol2 & -> & Hlast & Hch).
    split_and!; try congruence.
    + etrans; [exact Hsub | exact Hsub2].
    + simpl. lia.
    + by rewrite Hlast, last_cons_default.
    + pose proof (map_subseteq_size _ _ Hsub).
      case_bool_decide.
      * apply chain_grow; [lia | done].
      * destruct Hch as [-> ->]. replace (len self1) with (len self) by lia.
        constructor.
Qed.

Lemma outer_loop_Returned fuel : ∀ self k sid c self' k' tr,
  outer_loop Solve fuel self k sid c = Returned (self', k', tr) →
  rounds_from (retry self) c (len self) tr ∧
  archive self ⊆ archive self' ∧
  len self' = List.last (rsize <$> tr) (len self) ∧
  k' = (k + length (concat (sprays <$> tr)))%nat.
Proof.
  induction fuel as [|fuel IH]; intros self k sid c self' k' tr.
  - simpl. case_bool_decide; [done|]. intros [= <- <- <-].
    split_and!; try done; try (simpl; lia). by constructor.
  - rewrite outer_loop_S.
    case_bool_decide as Hgt;
      [|intros [= <- <- <-]; split_and!; try done; try (simpl; lia);
        by constructor].
    destruct (inner_loop _ _ _ _ _ _ _)
      as [[[[[self1 k1] sid1] size1] log1]| |] eqn:Hi; try done.
    apply inner_loop_Returned in Hi as (Hsub & -> & Hr & Hsol & -> & Hlast & Hch).
    rewrite bool_decide_eq_true_2 in Hch by lia. cbn zeta.
    destruct (outer_loop _ _ _ _ _ _) as [[[self2 k2] tr2]| |] eqn:Ho; try done.
    intros [= <- <- <-].
    apply IH in Ho as (Hrs & Hsub2 & Hlen & ->).
    split_and!.
    + eapply rounds_step; simpl; try done.
      * unfold unproductive; simpl. by case_bool_decide; case_decide.
      * by rewrite <- Hr.
    + etrans; [exact Hsub | exact Hsub2].
    + by rewrite Hlen, fmap_cons, last_cons_default.
    + rewrite fmap_cons. simpl. rewrite length_app. lia.
Qed.

Lemma _configure_Ok self model bounds stop monitor self0 :
  _configure self model bounds stop monitor = Ok self0 →
  archive self0 = archive self ∧ retry self0 = retry self ∧
  memtol self0 = memtol self ∧ is_Some (solver self0).
Proof.
  unfold _configure. destruct bounds; [done|]. intros [= <-]. simpl.
  by split_and!.
Qed.

(** What [Search] does before its loops: the sticky flags, then
    [_configure]. *)
Lemma Search_unfold fuel self k model bounds stop monitor traj' disp' :
  Search Solve fuel self k model bounds stop monitor traj' disp' =
    match
      _configure
        (Verbose (UseTrajectories self (default (traj self) traj'))
           (default (disp self) disp'))
        model bounds stop monitor
    with
    | Err e => Raised e
    | Ok self0 =>
        outer_loop Solve fuel self0 k 0
          (if bool_decide (retry self ≠ 0) then 0 else -1)
    end.
Proof.
  unfold Search. destruct (_configure _ _ _ _ _) as [self0|] eqn:Hc; [|done].
  apply _configure_Ok in Hc as (_ & Hr & _). simpl in Hr. by rewrite Hr.
Qed.

Lemma Search_Returned fuel self k model bounds stop monitor traj' disp' self' k' tr :
  Search Solve fuel self k model bounds stop monitor traj' disp' =
    Returned (self', k', tr) →
  rounds_from (retry self) (if bool_decide (retry self ≠ 0) then 0 else -1)
    (len self) tr ∧
  archive self ⊆ archive self' ∧
  len self' = List.last (rsize <$> tr) (len self) ∧
  k' = (k + length (concat (sprays <$> tr)))%nat.
Proof.
  rewrite Search_unfold.
  destruct (_configure _ _ _ _ _) as [self0|] eqn:Hc; [|done].
  apply _configure_Ok in Hc as (Ha & Hr & _). simpl in Ha, Hr.
  intros H%outer_loop_Returned. by rewrite Ha, Hr in H.
Qed.

(** *** More fuel never changes a result *)

Lemma inner_loop_mono fuel : ∀ fuel' self k sid _size size r,
  inner_loop Solve fuel self k sid _size size = Returned r →
  (fuel ≤ fuel')%nat →
  inner_loop Solve fuel' self k sid _size size = Returned r.
Proof.
  induction fuel as [|fuel IH]; intros fuel' self k sid _size size r; simpl.
  - case_bool_decide as Hgt; [done|]. intros <- _.
    destruct fuel'; simpl; by rewrite bool_decide_eq_false_2.
  - case_bool_decide as Hgt.
    + intros Hr Hle. destruct fuel' as [|fuel']; [lia|]. simpl.
      rewrite bool_decide_eq_true_2 by done.
      destruct (_search _ _ _ _) as [[[[self1 k1] sid1] size1]|]; [|done].
      destruct (inner_loop Solve fuel _ _ _ _ _) as [r1| |] eqn:Hi; try done.
      by rewrite (IH fuel' _ _ _ _ _ _ Hi) by lia.
    + intros <- _. destruct fuel'; simpl; by rewrite bool_decide_eq_false_2.
Qed.

Lemma outer_loop_mono fuel : ∀ fuel' self k sid c r,
  outer_loop Solve fuel self k sid c = Returned r →
  (fuel ≤ fuel')%nat →
  outer_loop Solve fuel' self k sid c = Returned r.
Proof.
  induction fuel as [|fuel IH]; intros fuel' self k sid c r; simpl.
  - case_bool_decide as Hgt; [done|]. intros <- _.
    destruct fuel'; simpl; by rewrite bool_decide_eq_false_2.
  - case_bool_decide as Hgt.
    + intros Hr Hle. destruct fuel' as [|fuel']; [lia|]. simpl.
      rewrite bool_decide_eq_true_2 by done.
      destruct (inner_loop Solve fuel _ _ _ _ _)
        as [[[[[self1 k1] sid1] size1] log1]| |] eqn:Hi; try done.
      rewrite (inner_loop_mono _ fuel' _ _ _ _ _ _ Hi) by lia.
      destruct (outer_loop Solve fuel _ _ _ _) as [r1| |] eqn:Ho; try done.
      by rewrite (IH fuel' _ _ _ _ _ Ho) by lia.
    + intros <- _. destruct fuel'; simpl; by rewrite bool_decide_eq_false_2.
Qed.

(** *** Termination when the keys that can be met lie in a finite set *)

Section finite_keys.

Variable K : gset coords.
Variable mt : Z.
Hypothesis Solve_in_K : ∀ k e s, s ∈ Solve k e → key_of mt s ∈ K.

Lemma bounded_size self : bounded K mt self → (size (archive self) ≤ size K)%nat.
Proof. intros (_ & _ & Hd). rewrite <- size_dom. by apply subseteq_size. Qed.

Lemma _search_bounded self k sid :
  bounded K mt self → ∃ self' sid',
    _search Solve self k sid = Ok (self', S k, sid', len self') ∧
    bounded K mt self' ∧ archive self ⊆ archive self'.
Proof.
  intros ([c Hc] & Hmt & Hd).
  destruct (_search Solve self k sid) as [[[[self1 k1] sid1] sz]|err] eqn:E;
    unfold _search, _solve in E; rewrite Hc in E; [|done].
  injection E as <- <- <- <-.
  match goal with |- ∃ _ _, Ok (?a, _, ?b, _) = _ ∧ _ => exists a, b end.
  split; [reflexivity|].
  simpl. split; [|apply _memoize_subseteq].
  split_and!; [done | done |]. simpl.
  rewrite _memoize_fold. apply memo_fold_dom; [|done].
  rewrite Hmt. intros s Hs. simpl in Hs. by eapply Solve_in_K.
Qed.

Lemma inner_loop_terminates n : ∀ self k sid _size,
  bounded K mt self → (size K - size (archive self) ≤ n)%nat →
  ∃ self' k' sid' log,
    inner_loop Solve (S n) self k sid _size (len self) =
      Returned (self', k', sid', len self', log) ∧ bounded K mt self'.
Proof.
  induction n as [|n IH]; intros self k sid _size Hb Hn.
  - rewrite inner_loop_S. case_bool_decide; [|by eexists _, _, _, _].
    destruct (_search_bounded self k sid Hb) as (self1 & sid1 & -> & Hb1 & Hsub).
    pose proof (bounded_size _ Hb1). pose proof (map_subseteq_size _ _ Hsub).
    simpl. rewrite bool_decide_eq_false_2 by lia. by eexists _, _, _, _.
  - rewrite inner_loop_S. case_bool_decide; [|by eexists _, _, _, _].
    destruct (_search_bounded self k sid Hb) as (self1 & sid1 & -> & Hb1 & Hsub).
    pose proof (map_subseteq_size _ _ Hsub).
    destruct (decide (len self1 > len self)) as [Hgt|Hngt].
    + destruct (IH self1 (S k) sid1 (len self) Hb1 ltac:(lia))
        as (self2 & k2 & sid2 & log & -> & Hb2).
      by eexists _, _, _, _.
    + destruct n; simpl; rewrite bool_decide_eq_false_2 by done;
        by eexists _, _, _, _.
Qed.

Lemma outer_loop_terminates R n : ∀ m self k sid c,
  bounded K mt self → retry self = R →
  (size K - size (archive self) ≤ n)%nat → (Z.to_nat (R - c) ≤ m)%nat →
  ∃ fuel r, outer_loop Solve fuel self k sid c = Returned r.
Proof.
  induction n as [n IHn] using lt_wf_ind.
  induction m as [|m IHm]; intros self k sid c Hb HR Hn Hm.
  - exists O. simpl. rewrite bool_decide_eq_false_2 by lia. eauto.
  - destruct (decide (retry self > c)) as [Hgt|Hngt];
      [|exists O; simpl; rewrite bool_decide_eq_false_2 by done; eauto].
    destruct (inner_loop_terminates n self k sid (-1) Hb Hn)
      as (self1 & k1 & sid1 & log & Hi & Hb1).
    pose proof Hi as (Hsub & _ & Hr1 & _)%inner_loop_Returned.
    pose proof (map_subseteq_size _ _ Hsub). pose proof (bounded_size _ Hb1).
    assert (∃ fuel r, outer_loop Solve fuel self1 k1 sid1
              (if bool_decide (len self1 = len self) then c + 1 else 0) = Returned r)
      as (f2 & [[self2 k2] tr] & Ho).
    { case_bool_decide.
      - apply IHm; [done | congruence | lia | lia].
      - apply (IHn (size K - size (archive self1))%nat ltac:(lia)
                 (Z.to_nat R)); [done | congruence | lia | lia]. }
    exists (S (S n `max` f2)). rewrite outer_loop_S, bool_decide_eq_true_2 by done.
    rewrite (inner_loop_mono _ _ _ _ _ _ _ _ Hi) by lia. cbn zeta.
    rewrite (outer_loop_mono _ _ _ _ _ _ _ Ho) by lia. eauto.
Qed.

(** Under box bounds and rounding the keys are finitely many: then every
    call of [Search] returns. *)
Lemma Search_terminates self k model bounds stop monitor traj' disp' :
  bounds ≠ [] → memtol self = mt → dom (archive self) ⊆ K →
  ∃ fuel r,
    Search Solve fuel self k model bounds stop monitor traj' disp' = Returned r.
Proof.
  intros Hb Hmt Hd.
  destruct (_configure
              (Verbose (UseTrajectories self (default (traj self) traj'))
                 (default (disp self) disp')) model bounds stop monitor)
    as [self0|err] eqn:Hc; [|by destruct bounds].
  pose proof (_configure_Ok _ _ _ _ _ _ Hc) as (Ha & Hr & Hm & Hs).
  simpl in Ha, Hr, Hm.
  destruct (outer_loop_terminates (retry self0)
              (size K - size (archive self0))%nat
              (Z.to_nat (retry self0 - (if bool_decide (retry self ≠ 0) then 0 else -1)))
              self0 k 0 (if bool_decide (retry self ≠ 0) then 0 else -1))
    as (fuel & r & Ho); [|done|lia|lia|].
  { split_and!; [done | congruence | by rewrite Ha]. }
  exists fuel, r. by rewrite Search_unfold, Hc.
Qed.

End finite_keys.

(** *** [Minima] *)

Lemma Minima_nonempty_archive self tol' :
  archive self ≠ ∅ →
  ∃ x, extreme_of (_inv self) (archive self) x ∧
    Minima self tol' =
      Ok (filter (λ kv, pyround kv.2 (default (tol self) tol') =
                        pyround x (default (tol self) tol')) (archive self)).
Proof.
  intros Hne. unfold Minima, extreme_of.
  assert ((map_to_list (archive self)).*2 ≠ []) as Hl by by rewrite map_values_nil.
  destruct (_inv self).
  - destruct (py_max_Ok _ Hl) as (m & -> & Hin & Hle). exists m. split; [|done].
    split; [by apply elem_of_map_values|].
    intros k v Hk. apply Hle, elem_of_map_values. eauto.
  - destruct (py_min_Ok _ Hl) as (m & -> & Hin & Hle). exists m. split; [|done].
    split; [by apply elem_of_map_values|].
    intros k v Hk. apply Hle, elem_of_map_values. eauto.
Qed.

Lemma Minima_empty_archive self tol' :
  archive self = ∅ → Minima self tol' = Err ValueError.
Proof.
  intros He. unfold Minima. rewrite He, map_to_list_empty. by destruct (_inv self).
Qed.

Lemma Minima_Ok_inv self tol' m : Minima self tol' = Ok m → archive self ≠ ∅.
Proof. intros H He. by rewrite (Minima_empty_archive _ _ He) in H. Qed.

Lemma outer_loop_zero_retry fuel self k sid self1 k1 sid1 size1 log :
  retry self = 0 →
  inner_loop Solve fuel self k sid (-1) (len self) =
    Returned (self1, k1, sid1, size1, log) →
  outer_loop Solve (S fuel) self k sid (-1) =
    Returned (self1, k1, [mkRound (len self) log size1 0]).
Proof.
  intros HR Hi. rewrite outer_loop_S, bool_decide_eq_true_2, Hi by lia.
  pose proof Hi as (_ & _ & Hr1 & _)%inner_loop_Returned.
  replace (if bool_decide (size1 = len self) then -1 + 1 else 0) with 0
    by (by case_bool_decide).
  cbn zeta. destruct fuel; simpl; by rewrite bool_decide_eq_false_2 by lia.
Qed.

(** ** The claims *)

(** C1. With [retry = 0], a call of [Search] that returns has performed
    exactly one outer round: one inner spray loop, started at the archive
    size found on entry, and one productivity check, which leaves the counter
    at [0] whether or not the round grew the archive.  And the call does
    return, for every fuel large enough, as soon as the keys the sprays can
    produce lie in a finite set. *)
Theorem Search_zero_retry_one_round self k model bounds stop monitor traj' disp' :
  retry self = 0 →
  (∀ fuel self' k' tr,
     Search Solve fuel self k model bounds stop monitor traj' disp' =
       Returned (self', k', tr) →
     ∃ r, tr = [r] ∧ osize r = len self ∧
          spray_chain (osize r) (sprays r) ∧ rcount r = 0) ∧
  (∀ K : gset coords,
     bounds ≠ [] → dom (archive self) ⊆ K →
     (∀ j e s, s ∈ Solve j e → key_of (memtol self) s ∈ K) →
     ∃ fuel self' k' r,
       ∀ fuel', (fuel ≤ fuel')%nat →
       Search Solve fuel' self k model bounds stop monitor traj' disp' =
         Returned (self', k', [r])).
Proof.
  intros HR.
  assert (∀ fuel self' k' tr,
     Search Solve fuel self k model bounds stop monitor traj' disp' =
       Returned (self', k', tr) →
     ∃ r, tr = [r] ∧ osize r = len self ∧
          spray_chain (osize r) (sprays r) ∧ rcount r = 0) as Hone.
  { intros fuel self' k' tr (Hrs & _)%Search_Returned.
    rewrite HR, bool_decide_eq_false_2 in Hrs by (intros Hne; by apply Hne).
    apply rounds_from_zero in Hrs as (r & -> & Hos & Hch & Hc).
    exists r. by rewrite Hos. }
  split; [exact Hone|].
  intros K Hb Hd HK.
  destruct (Search_terminates K (memtol self) HK self k model bounds stop
              monitor traj' disp' Hb eq_refl Hd) as (fuel & [[self' k'] tr] & Hs).
  destruct (Hone _ _ _ _ Hs) as (r & -> & _).
  exists fuel, self', k', r. intros fuel' Hle.
  revert Hs. rewrite !Search_unfold.
  destruct (_configure _ _ _ _ _); [|done].
  intros Ho. by apply (outer_loop_mono _ _ _ _ _ _ _ Ho).
Qed.



(** C4 (as amended).  When every result of a batch has the same canonical
    key, i.e. the coordinates round alike at the memoization precision, the
    batch adds at most one entry to the archive, nothing at all when the key
    is already stored, and the second and later results change nothing,
    however many they are and in whatever order they come. *)
Theorem memoize_same_key_one_entry self e tol key :
  (∀ s, s ∈ ens_allSolvers e → key_of tol s = key) →
  (size (cache (_memoize self e tol)) ≤ S (size (archive self)))%nat ∧
  (is_Some (archive self !! key) → cache (_memoize self e tol) = archive self) ∧
  (∀ s rest, ens_allSolvers e = s :: rest →
     cache (_memoize self e tol) = cache (_memoize self (set_members [s] e) tol)).
Proof.
  intros Hall.
  assert (∀ s rest, ens_allSolvers e = s :: rest →
     cache (_memoize self e tol) = cache (_memoize self (set_members [s] e) tol))
    as Hfirst.
  { intros s rest Hm. rewrite !_memoize_fold, Hm. simpl.
    apply (memo_fold_present _ _ _ _ key).
    - intros s' Hs'. apply Hall. rewrite Hm. by right.
    - rewrite <- (Hall s) by (rewrite Hm; by left). apply memo_step_present. }
  split_and!; [| |done].
  - destruct (ens_allSolvers e) as [|s rest] eqn:Hm.
    + rewrite _memoize_fold, Hm. simpl. lia.
    + rewrite (Hfirst s rest eq_refl), _memoize_fold. simpl.
      apply (memo_step_size _ _ (mkMemo _ _ _)).
  - intros Hin. rewrite _memoize_fold.
    by apply (memo_fold_present _ _ _ (mkMemo _ _ _) key).
Qed.

(** C5 (as amended).  After a batch is memoized, a key that was already in
    the archive keeps the value it had, and a new key holds the signed value
    of the first result of the batch that has this key: the first write
    stays, later results with the same key are cache hits and are dropped. *)
Theorem memoize_first_write_wins self e tol key :
  cache (_memoize self e tol) !! key =
    match archive self !! key with
    | Some v => Some v
    | None =>
        (λ s, (sign (_inv self) * bestEnergy s.2)%Qc) <$>
          list_find (λ s, key_of tol s = key) (ens_allSolvers e)
    end.
Proof. rewrite _memoize_fold. apply memo_fold_lookup. Qed.

(** C6. On a non-empty archive [Minima(tol)] returns a mapping, and its
    entries are exactly the archive's entries whose value rounds, at [tol]
    decimals, to the rounded extreme stored value: the least one, or the
    greatest one when the searcher is inverted. *)
Theorem Minima_exact self tol' :
  archive self ≠ ∅ →
  ∃ m x,
    Minima self tol' = Ok m ∧
    extreme_of (_inv self) (archive self) x ∧
    ∀ k v, m !! k = Some v ↔
      archive self !! k = Some v ∧
      pyround v (default (tol self) tol') = pyround x (default (tol self) tol').
Proof.
  intros Hne. destruct (Minima_nonempty_archive self tol' Hne) as (x & Hx & ->).
  eexists _, x. split_and!; [done..|].
  intros k v. by rewrite map_lookup_filter_Some.
Qed.

(** C7. On a non-empty archive the mapping returned by [Minima(tol)] is a
    part of the archive (its keys are keys of the archive, with the same
    values) and it is not empty. *)
Theorem Minima_subset_nonempty self tol' :
  archive self ≠ ∅ →
  ∃ m, Minima self tol' = Ok m ∧
    m ⊆ archive self ∧ dom m ⊆ dom (archive self) ∧ m ≠ ∅.
Proof.
  intros Hne.
  destruct (Minima_nonempty_archive self tol' Hne) as (x & [[k Hk] _] & ->).
  eexists. split; [done|].
  pose proof (map_filter_subseteq
    (λ kv : coords * Qc, pyround kv.2 (default (tol self) tol') =
                         pyround x (default (tol self) tol')) (archive self)) as Hsub.
  split_and!; [done | by apply subseteq_dom |].
  intros He. apply (f_equal (lookup k)) in He.
  rewrite lookup_empty in He.
  by rewrite (proj2 (map_lookup_filter_Some _ _ k x)) in He.
Qed.

(** C8. Memoizing a batch keeps every entry of the archive, so each spray
    leaves the archive at least as large as it found it; over a whole call
    of [Search] the sizes seen, in order, never decrease, and the archive on
    return contains the archive on entry.  [Reset] without a replacement
    archive leaves an empty archive. *)
Theorem archive_never_shrinks :
  (∀ self e tol, archive self ⊆ cache (_memoize self e tol)) ∧
  (∀ self k sid self' k' sid' sz,
     _search Solve self k sid = Ok (self', k', sid', sz) →
     archive self ⊆ archive self' ∧ len self ≤ len self' ∧ sz = len self') ∧
  (∀ fuel self k model bounds stop monitor traj' disp' self' k' tr,
     Search Solve fuel self k model bounds stop monitor traj' disp' =
       Returned (self', k', tr) →
     archive self ⊆ archive self' ∧
     StronglySorted Z.le (len self :: size_history tr) ∧
     len self' = List.last (size_history tr) (len self)) ∧
  (∀ self inv, archive (Reset self None inv) = ∅).
Proof.
  split_and!.
  - apply _memoize_subseteq.
  - intros self k sid self' k' sid' sz Hs.
    apply _search_Ok in Hs as (Hsub & -> & _).
    pose proof (map_subseteq_size _ _ Hsub). split_and!; [done | lia | done].
  - intros fuel self k model bounds stop monitor traj' disp' self' k' tr
      (Hrs & Hsub & Hlen & _)%Search_Returned.
    split_and!; [done | |].
    + apply Sorted_StronglySorted; [intros ???; lia|].
      by eapply rounds_from_sorted.
    + rewrite Hlen. by eapply rounds_from_last.
  - done.
Qed.

(** C9 (as amended).  When trajectory capture is off and no log file name
    can be read from the configured solver's monitor (the monitor has no
    [_filename], or no solver was configured yet), [Trajectories] raises a
    [RuntimeError] whose message is
    "a LoggingMonitor or UseTrajectories is required"; nothing is retried. *)
Theorem Trajectories_usage_error self :
  traj self = false →
  (∀ s, solver self = Some s → _filename (ens_stepmon s) = None) →
  Trajectories read_trajectories self =
    Err (RuntimeError "a LoggingMonitor or UseTrajectories is required").
Proof.
  intros Ht Hs. unfold Trajectories. rewrite Ht. simpl.
  destruct (solver self) as [s|]; [|done]. by rewrite (Hs s eq_refl).
Qed.

(** C10. On an empty archive [Minima(tol)] raises [ValueError] (the extreme
    of no values), and a mapping returned by [Minima] is never empty. *)
Theorem Minima_empty_archive_raises self tol' :
  (archive self = ∅ → Minima self tol' = Err ValueError) ∧
  (∀ m, Minima self tol' = Ok m → m ≠ ∅).
Proof.
  split; [apply Minima_empty_archive|].
  intros m Hm. pose proof (Minima_Ok_inv _ _ _ Hm) as Hne.
  destruct (Minima_nonempty_archive self tol' Hne) as (x & [[k Hk] _] & Hx).
  rewrite Hx in Hm. injection Hm as <-.
  intros He. apply (f_equal (lookup k)) in He.
  rewrite lookup_empty in He.
  by rewrite (proj2 (map_lookup_filter_Some _ _ k x)) in He.
Qed.

End Properties.

(** ** The scenario, worked *)

(** [round] on values that are exact as floats: 0.125 and 0.1875 at one
    decimal, the tie 2.5 at none, 1234.0 at minus two. *)
Example pyround_values :
  pyround (Demo.qc 1 8) 1 = Demo.qc 1 10 ∧
  pyround (Demo.qc 3 16) 1 = Demo.qc 1 5 ∧
  pyround (Demo.qc 5 2) 0 = Demo.qc 2 1 ∧
  pyround (Demo.qc 1234 1) (-2) = Demo.qc 1200 1.
Proof. split_and!; compute_done. Qed.

Lemma Demo_Solve_keys j e s :
  s ∈ Demo.Solve j e → key_of 1 s ∈ Demo.keys.
Proof.
  destruct j as [|[|j]]; simpl; rewrite ?elem_of_cons, elem_of_nil;
    intros H; repeat (destruct H as [->|H]); try done; compute_done.
Qed.


Example Demo_run_0_rounds :
  rounds_of (Demo.run 0) = Some [mkRound 0 [2; 3; 3] 3 0].
Proof. vm_compute. reflexivity. Qed.

Lemma Search_zero_retry_one_round_witness :
  retry (Demo.searcher 0) = 0 ∧
  (∃ r, rounds_of (Demo.run 0) = Some [r]) ∧
  (∃ fuel self' k' r,
     ∀ fuel', (fuel ≤ fuel')%nat →
       Search Demo.Solve fuel' (Demo.searcher 0) 0 tt Demo.bounds None None None None =
         Returned (self', k', [r])).
Proof.
  pose proof (Search_zero_retry_one_round Demo.Solve (Demo.searcher 0) 0%nat tt
                Demo.bounds None None None None eq_refl) as [Hone Hret].
  split_and!; [reflexivity | |].
  - unfold Demo.run.
    destruct (Search _ _ _ _ _ _ _ _ _ _) as [[[s k] tr]|err|] eqn:E.
    + destruct (Hone _ _ _ _ E) as (r & -> & _). by exists r.
    + vm_compute in E. discriminate.
    + vm_compute in E. discriminate.
  - apply (Hret Demo.keys); [done | done |]. apply Demo_Solve_keys.
Defined.



(** C4, as stated, fails: 0.125 and 0.1875 differ by less than [10^-1], yet
    at one decimal they round to 0.1 and 0.2, so memoizing the second after
    the first adds a second entry. *)
Lemma memoize_close_points_two_entries :
  let x := Demo.qc 1 8 in
  let x' := Demo.qc 3 16 in
  let one := Demo.ensemble [Demo.seeker_at x (Demo.qc 1 1)] in
  let both :=
    Demo.ensemble [Demo.seeker_at x (Demo.qc 1 1); Demo.seeker_at x' (Demo.qc 2 1)] in
  (x < x')%Qc ∧ (x' - x < Demo.qc 1 10)%Qc ∧
  size (cache (_memoize (Demo.searcher 1) one 1)) = 1%nat ∧
  size (cache (_memoize (Demo.searcher 1) both 1)) = 2%nat ∧
  ¬ (size (cache (_memoize (Demo.searcher 1) both 1)) ≤
     size (cache (_memoize (Demo.searcher 1) one 1)))%nat.
Proof.
  cbv zeta. split_and!; [compute_done | compute_done | compute_done | compute_done |].
  intros H. vm_compute in H. lia.
Qed.

Lemma memoize_same_key_one_entry_witness :
  let e := Demo.ensemble [Demo.seeker_at (Demo.qc 1 8) (Demo.qc 1 1);
                          Demo.seeker_at (Demo.qc 1 8) (Demo.qc 5 1);
                          Demo.seeker_at (Demo.qc 1 8) (Demo.qc 7 1)] in
  (size (cache (_memoize (Demo.searcher 1) e 1)) ≤ 1)%nat.
Proof.
  intros e.
  apply (memoize_same_key_one_entry (Demo.searcher 1) e 1
           (rounded_args 1 [Demo.qc 1 8])).
  intros s. unfold e. simpl. rewrite !elem_of_cons, elem_of_nil.
  intros [->|[->|[->|[]]]]; reflexivity.
Defined.

(** C5, as stated, fails: two results with the same key, values 1 then 5;
    the archive holds 1, the first, and not 5, the last. *)
Lemma memoize_collision_keeps_first :
  let first := Demo.seeker_at (Demo.qc 1 8) (Demo.qc 1 1) in
  let last := Demo.seeker_at (Demo.qc 1 8) (Demo.qc 5 1) in
  let archive' :=
    cache (_memoize (Demo.searcher 1) (Demo.ensemble [first; last]) 1) in
  key_of 1 first = key_of 1 last ∧
  archive' !! key_of 1 last = Some (bestEnergy first) ∧
  archive' !! key_of 1 last ≠ Some (bestEnergy last).
Proof.
  cbv zeta. split_and!; [reflexivity | compute_done | compute_done].
Qed.

Lemma Minima_exact_witness :
  ∃ m x,
    Minima Demo.stocked None = Ok m ∧
    extreme_of false (archive Demo.stocked) x ∧
    ∀ k v, m !! k = Some v ↔
      archive Demo.stocked !! k = Some v ∧ pyround v 8 = pyround x 8.
Proof.
  apply (Minima_exact Demo.stocked None). simpl. apply insert_non_empty.
Defined.

Lemma Minima_subset_nonempty_witness :
  ∃ m, Minima Demo.stocked (Some 0) = Ok m ∧
    m ⊆ archive Demo.stocked ∧ dom m ⊆ dom (archive Demo.stocked) ∧ m ≠ ∅.
Proof.
  apply (Minima_subset_nonempty Demo.stocked (Some 0)). simpl.
  apply insert_non_empty.
Defined.

Lemma archive_never_shrinks_witness :
  ∃ tr, rounds_of (Demo.run 1) = Some tr ∧
        StronglySorted Z.le (0 :: size_history tr).
Proof.
  unfold Demo.run.
  destruct (Search _ _ _ _ _ _ _ _ _ _) as [[[s k] tr]|err|] eqn:E.
  - exists tr. split; [done|].
    destruct (archive_never_shrinks (Model:=unit) (Stop:=unit) Demo.Solve)
      as (_ & _ & Hrun & _).
    by destruct (Hrun _ _ _ _ _ _ _ _ _ _ _ _ E) as (_ & Hsorted & _).
  - vm_compute in E. discriminate.
  - vm_compute in E. discriminate.
Defined.

(** C9, as stated, fails on the message: the text raised is not the one the
    claim quotes. *)
Lemma Trajectories_message_differs :
  Trajectories Demo.read Demo.configured ≠
    Err (RuntimeError
           "trajectory capture or a persistent generation monitor is required").
Proof. vm_compute. discriminate. Qed.

Lemma Trajectories_usage_error_witness :
  Trajectories Demo.read Demo.configured =
    Err (RuntimeError "a LoggingMonitor or UseTrajectories is required").
Proof.
  apply (Trajectories_usage_error Demo.read Demo.configured); [reflexivity|].
  intros s [= <-]. reflexivity.
Defined.

Lemma Minima_empty_archive_raises_witness :
  Minima (Demo.searcher 1) None = Err ValueError.
Proof.
  apply (proj1 (Minima_empty_archive_raises (Demo.searcher 1) None)).
  reflexivity.
Defined.

(** * More of the searcher

    The rest of [search.py]: what [Search] leaves of the settings and of the
    history, when it raises, how much it runs at least, what [_memoize]
    counts, and the reports [Values], [Coordinates], [_summarize], [Reset]
    and [Trajectories]. *)

Lemma leading_le rs : (leading rs ≤ length rs)%nat.
Proof. induction rs as [|r rs IH]; simpl; [lia|]. case_decide; lia. Qed.

Lemma trailing_le rs : (trailing rs ≤ length rs)%nat.
Proof. unfold trailing. rewrite <- (length_reverse rs). apply leading_le. Qed.

Lemma rounds_from_trailing R s tr :
  rounds_from R 0 s tr → 0 < R → Z.of_nat (trailing tr) = R.
Proof.
  intros Hrs HR.
  pose proof (rounds_from_counts _ _ _ _ Hrs (Z.le_refl 0)) as Hc.
  pose proof (rounds_from_nonempty _ _ _ _ Hrs ltac:(lia)) as Hne.
  assert (S (pred (length tr)) = length tr) as Hlen
    by (destruct tr; [done|simpl; lia]).
  destruct (lookup_lt_is_Some_2 tr (pred (length tr))) as [r Hr]; [lia|].
  destruct (Hc _ _ Hr) as (Hcnt & _ & Hlast).
  rewrite Hlen, take_ge, count_after_0 in Hcnt by lia.
  rewrite <- Hcnt. by apply Hlast.
Qed.

Lemma rounds_from_sprays R c s tr :
  rounds_from R c s tr → (length tr ≤ length (concat (sprays <$> tr)))%nat.
Proof.
  induction 1 as [|c s r tr Hgt Hos Hch Hrs Hrc Hrest IH]; [done|].
  rewrite fmap_cons. change (concat (?a :: ?b)) with (a ++ concat b).
  rewrite length_app. simpl.
  destruct (sprays r); [by inversion Hch|simpl; lia].
Qed.

Lemma memo_fold_all_present l tol members : ∀ m,
  (∀ s, s ∈ members → is_Some (cache m !! key_of tol s)) →
  cache (fold_left (memo_step l tol) members m) = cache m.
Proof.
  induction members as [|s members IH]; intros m Hall; [done|].
  simpl. assert (cache (memo_step l tol m s) = cache m) as Hstep.
  { unfold memo_step. rewrite memo_call_cache.
    by destruct (Hall s ltac:(by left)) as [v ->]. }
  rewrite IH, Hstep; [done|]. intros s' Hs'. rewrite Hstep. apply Hall. by right.
Qed.

Lemma memo_fold_dom_eq l tol members : ∀ m,
  dom (cache (fold_left (memo_step l tol) members m)) =
    dom (cache m) ∪ list_to_set ((λ s, key_of tol s) <$> members).
Proof.
  induction members as [|s members IH]; intros m.
  - simpl. by rewrite (right_id_L ∅ (∪)).
  - cbn [fold_left]. rewrite IH. unfold memo_step. rewrite memo_call_cache.
    destruct (cache m !! key_of tol s) eqn:Hs.
    + apply (elem_of_dom_2 (cache m)) in Hs.
      rewrite fmap_cons, list_to_set_cons.
      apply set_eq. intros x. rewrite !elem_of_union, elem_of_singleton.
      split; [tauto|]. intros [?|[->|?]]; tauto.
    + rewrite dom_insert_L, fmap_cons, list_to_set_cons.
      apply set_eq. intros x. rewrite !elem_of_union, elem_of_singleton. tauto.
Qed.

(** ** First occurrences *)

Lemma unique_from_spec {A} `{Countable A} (l : list A) : ∀ new : gset A,
  NoDup (unique_from new l) ∧
  (∀ x, x ∈ unique_from new l ↔ x ∈ l ∧ x ∉ new) ∧
  unique_from new l `sublist_of` l.
Proof.
  induction l as [|v l IH]; intros new; simpl.
  - split_and!; [constructor | | done].
    intros x. rewrite elem_of_nil. tauto.
  - case_decide as Hv.
    + destruct (IH new) as (Hnd & Hel & Hsub). split_and!; [done | |].
      * intros x. rewrite Hel, elem_of_cons. split; [tauto|].
        intros [[->|?] ?]; tauto.
      * by apply sublist_cons.
    + destruct (IH ({[v]} ∪ new)) as (Hnd & Hel & Hsub). split_and!.
      * constructor; [|done]. rewrite Hel, elem_of_union, elem_of_singleton. tauto.
      * intros x. rewrite !elem_of_cons, Hel, elem_of_union, elem_of_singleton.
        destruct (decide (x = v)) as [->|]; tauto.
      * by apply sublist_skip.
Qed.

Lemma unique_from_NoDup {A} `{Countable A} (l : list A) : ∀ new : gset A,
  NoDup l → (∀ x, x ∈ l → x ∉ new) → unique_from new l = l.
Proof.
  induction l as [|v l IH]; intros new Hnd Hnew; [done|]. simpl.
  apply NoDup_cons in Hnd as [Hv Hnd].
  rewrite decide_False by (apply Hnew; by left). f_equal.
  apply IH; [done|]. intros x Hx. rewrite elem_of_union, elem_of_singleton.
  intros [->|Hin]; [done|]. by apply (Hnew x); [right|].
Qed.

Lemma size_list_to_set_le {A} `{Countable A} (l : list A) :
  (size (list_to_set l : gset A) ≤ length l)%nat.
Proof.
  induction l as [|x l IH]; [by rewrite list_to_set_nil, size_empty|].
  rewrite list_to_set_cons, size_union_alt, size_singleton.
  pose proof (subseteq_size (list_to_set l ∖ {[x]}) (list_to_set l : gset A)
                (subseteq_difference_l _ _ _ (reflexivity _))).
  simpl. lia.
Qed.

Lemma extreme_of_unique inv A x y :
  extreme_of inv A x → extreme_of inv A y → x = y.
Proof.
  intros [[kx Hx] Hlx] [[ky Hy] Hly].
  pose proof (Hlx _ _ Hy). pose proof (Hly _ _ Hx).
  destruct inv; by apply Qcle_antisym.
Qed.

Section Further.

Context {Model Stop : Type}.
Variable Solve : nat → Ensemble Model Stop → list Seeker.
Variable read_trajectories : traj_source → res (list Z * list coords * list Qc).
Implicit Types (self : Searcher Model Stop) (e : Ensemble Model Stop).

Lemma same_settings_refl self : same_settings self self.
Proof. by repeat split. Qed.

Lemma same_settings_trans self1 self2 self3 :
  same_settings self1 self2 → same_settings self2 self3 → same_settings self1 self3.
Proof.
  intros (?&?&?&?&?&?&?&?) (?&?&?&?&?&?&?&?). unfold same_settings.
  split_and!; congruence.
Qed.

(** One spray, in full. *)
Lemma _search_inv self k sid self' k' sid' sz :
  _search Solve self k sid = Ok (self', k', sid', sz) →
  ∃ cfg sprayed,
    solver self = Some cfg ∧
    sprayed = set_members (Solve k (set_id sid cfg)) (set_id sid cfg) ∧
    archive self' = cache (_memoize self sprayed (memtol self)) ∧
    _allSolvers self' =
      (if traj self then _allSolvers self ++ [sprayed] else _allSolvers self) ∧
    sid' = sid + Z.of_nat (length (Solve k (set_id sid cfg))) ∧
    k' = S k ∧ same_settings self self'.
Proof.
  unfold _search, _solve. destruct (solver self) as [cfg|] eqn:Hc; [|done].
  intros [= <- <- <- <-]. exists cfg. eexists. by split_and!.
Qed.

Lemma inner_loop_settings fuel : ∀ self k sid _size size self' k' sid' size' log,
  inner_loop Solve fuel self k sid _size size =
    Returned (self', k', sid', size', log) →
  same_settings self self'.
Proof.
  induction fuel as [|fuel IH]; intros self k sid _size size self' k' sid' size' log.
  - simpl. case_bool_decide; [done|]. intros [= <- <- <- <- <-].
    apply same_settings_refl.
  - rewrite inner_loop_S. case_bool_decide;
      [|intros [= <- <- <- <- <-]; apply same_settings_refl].
    destruct (_search _ _ _ _) as [[[[self1 k1] sid1] size1]|] eqn:Hs; [|done].
    apply _search_inv in Hs as (cfg & sprayed & _ & _ & _ & _ & _ & _ & Hset).
    destruct (inner_loop _ _ _ _ _ _ _)
      as [[[[[self2 k2] sid2] size2] log2]| |] eqn:Hi; try done.
    intros [= <- <- <- <- <-]. apply IH in Hi. by eapply same_settings_trans.
Qed.

Lemma outer_loop_settings fuel : ∀ self k sid c self' k' tr,
  outer_loop Solve fuel self k sid c = Returned (self', k', tr) →
  same_settings self self'.
Proof.
  induction fuel as [|fuel IH]; intros self k sid c self' k' tr.
  - simpl. case_bool_decide; [done|]. intros [= <- <- <-].
    apply same_settings_refl.
  - rewrite outer_loop_S. case_bool_decide;
      [|intros [= <- <- <-]; apply same_settings_refl].
    destruct (inner_loop _ _ _ _ _ _ _)
      as [[[[[self1 k1] sid1] size1] log1]| |] eqn:Hi; try done.
    apply inner_loop_settings in Hi. cbn zeta.
    destruct (outer_loop _ _ _ _ _ _) as [[[self2 k2] tr2]| |] eqn:Ho; try done.
    intros [= <- <- <-]. apply IH in Ho. by eapply same_settings_trans.
Qed.

(** X1. A call of [Search] that returns leaves [npts], [retry], [tol],
    [memtol] and the inversion flag as they were; [traj] and [disp] hold the
    values passed, or their former values when none was passed (they are
    sticky); and [solver] is the ensemble configured from the arguments: one
    dimension per bound, the lower and the upper bounds as strict ranges, the
    monitor passed or a fresh plain one, the termination and the model. *)
Theorem Search_settings fuel self k model bounds stop monitor traj' disp' self' k' tr :
  Search Solve fuel self k model bounds stop monitor traj' disp' =
    Returned (self', k', tr) →
  traj self' = default (traj self) traj' ∧
  disp self' = default (disp self) disp' ∧
  npts self' = npts self ∧ retry self' = retry self ∧ tol self' = tol self ∧
  memtol self' = memtol self ∧ _inv self' = _inv self ∧
  ∃ cfg, solver self' = Some cfg ∧
    ens_ndim cfg = length bounds ∧ ens_npts cfg = npts self ∧
    ens_min cfg = bounds.*1 ∧ ens_max cfg = bounds.*2 ∧
    ens_stepmon cfg = default (mkMonitor None []) monitor ∧
    ens_termination cfg = stop ∧ ens_objective cfg = Some model.
Proof.
  rewrite Search_unfold. unfold _configure.
  destruct bounds as [|b bounds]; [done|].
  intros (Ht & Hd & Hn & Hr & Hto & Hm & Hi & Hs)%outer_loop_settings.
  simpl in *. split_and!; try done. eexists. split; [exact Hs|]. by split_and!.
Qed.

Lemma consecutive_ids_app sid (l1 l2 : list (Ensemble Model Stop)) :
  consecutive_ids sid (l1 ++ l2) ↔
  consecutive_ids sid l1 ∧
  consecutive_ids
    (sid + Z.of_nat (length (concat (ens_allSolvers <$> l1)))) l2.
Proof.
  revert sid. induction l1 as [|e l1 IH]; intros sid; simpl.
  - rewrite Z.add_0_r. tauto.
  - rewrite IH, length_app, Nat2Z.inj_add, Z.add_assoc. tauto.
Qed.

(** The history an inner loop adds. *)
Lemma inner_loop_history fuel : ∀ self k sid _size size self' k' sid' size' log,
  inner_loop Solve fuel self k sid _size size =
    Returned (self', k', sid', size', log) →
  ∃ ran : list (Ensemble Model Stop),
    length ran = length log ∧
    consecutive_ids sid ran ∧
    sid' = sid + Z.of_nat (length (concat (ens_allSolvers <$> ran))) ∧
    _allSolvers self' = (if traj self then _allSolvers self ++ ran else _allSolvers self).
Proof.
  induction fuel as [|fuel IH]; intros self k sid _size size self' k' sid' size' log.
  - simpl. case_bool_decide; [done|]. intros [= <- <- <- <- <-].
    exists []. simpl. rewrite app_nil_r, Z.add_0_r. by destruct (traj self).
  - rewrite inner_loop_S. case_bool_decide.
    2:{ intros [= <- <- <- <- <-].
        exists []. simpl. rewrite app_nil_r, Z.add_0_r. by destruct (traj self). }
    destruct (_search _ _ _ _) as [[[[self1 k1] sid1] size1]|] eqn:Hs; [|done].
    apply _search_inv in Hs
      as (cfg & sprayed & Hcfg & Hsp & _ & Hh & Hsid & _ & Hset).
    destruct (inner_loop _ _ _ _ _ _ _)
      as [[[[[self2 k2] sid2] size2] log2]| |] eqn:Hi; try done.
    intros [= <- <- <- <- <-].
    apply IH in Hi as (ran & Hlen & Hids & Hsid2 & Hh2).
    assert (length (ens_allSolvers sprayed) = length (Solve k (set_id sid cfg)))
      as Hm by by rewrite Hsp.
    assert (ens_id sprayed = Some sid) as Hid by by rewrite Hsp.
    exists (sprayed :: ran). split_and!.
    + simpl. by rewrite Hlen.
    + simpl. split; [done|]. by rewrite Hm, <- Hsid.
    + rewrite Hsid2, Hsid, fmap_cons.
      change (concat (?a :: ?b)) with (a ++ concat b).
      rewrite length_app, Hm, Nat2Z.inj_add. lia.
    + rewrite Hh2. destruct Hset as (Ht & _). rewrite Ht, Hh.
      destruct (traj self); [|done]. by rewrite <- app_assoc.
Qed.

Lemma outer_loop_history fuel : ∀ self k sid c self' k' tr,
  outer_loop Solve fuel self k sid c = Returned (self', k', tr) →
  ∃ ran : list (Ensemble Model Stop),
    length ran = length (concat (sprays <$> tr)) ∧
    consecutive_ids sid ran ∧
    _allSolvers self' = (if traj self then _allSolvers self ++ ran else _allSolvers self).
Proof.
  induction fuel as [|fuel IH]; intros self k sid c self' k' tr.
  - simpl. case_bool_decide; [done|]. intros [= <- <- <-].
    exists []. simpl. rewrite app_nil_r. by destruct (traj self).
  - rewrite outer_loop_S. case_bool_decide.
    2:{ intros [= <- <- <-].
        exists []. simpl. rewrite app_nil_r. by destruct (traj self). }
    destruct (inner_loop _ _ _ _ _ _ _)
      as [[[[[self1 k1] sid1] size1] log1]| |] eqn:Hi; try done.
    pose proof (inner_loop_settings _ _ _ _ _ _ _ _ _ _ _ Hi) as (Ht & _).
    apply inner_loop_history in Hi as (ran1 & Hlen1 & Hids1 & Hsid1 & Hh1).
    cbn zeta.
    destruct (outer_loop _ _ _ _ _ _) as [[[self2 k2] tr2]| |] eqn:Ho; try done.
    intros [= <- <- <-].
    apply IH in Ho as (ran2 & Hlen2 & Hids2 & Hh2).
    exists (ran1 ++ ran2). split_and!.
    + rewrite fmap_cons. change (concat (?a :: ?b)) with (a ++ concat b).
      rewrite !length_app. simpl. lia.
    + apply consecutive_ids_app. split; [done|]. by rewrite <- Hsid1.
    + rewrite Hh2, Ht, Hh1. destruct (traj self); [|done]. by rewrite app_assoc.
Qed.

(** X2. With trajectory capture on, a call of [Search] that returns has
    appended to the history exactly one solved ensemble per spray, in order;
    the first carries id 0 and each next one the id of the one before
    advanced by its number of members.  With capture off the history is
    left as it was. *)
Theorem Search_history fuel self k model bounds stop monitor traj' disp' self' k' tr :
  Search Solve fuel self k model bounds stop monitor traj' disp' =
    Returned (self', k', tr) →
  if default (traj self) traj' then
    ∃ ran : list (Ensemble Model Stop),
      _allSolvers self' = _allSolvers self ++ ran ∧
      length ran = (k' - k)%nat ∧
      consecutive_ids 0 ran
  else _allSolvers self' = _allSolvers self.
Proof.
  intros Hs. pose proof Hs as (_ & _ & _ & Hk)%Search_Returned.
  revert Hs. rewrite Search_unfold. unfold _configure.
  destruct bounds as [|b bounds]; [done|].
  intros (ran & Hlen & Hids & Hh)%outer_loop_history. simpl in Hh.
  destruct (default (traj self) traj'); [|done].
  exists ran. split_and!; [done | lia | done].
Qed.

(** *** Where the keys of the archive come from *)

Lemma outer_loop_bounded (K : gset coords) mt fuel :
  (∀ j e s, s ∈ Solve j e → key_of mt s ∈ K) →
  ∀ self k sid c self' k' tr,
  outer_loop Solve fuel self k sid c = Returned (self', k', tr) →
  memtol self = mt → dom (archive self) ⊆ K → dom (archive self') ⊆ K.
Proof.
  intros HK.
  assert (∀ fuel self k sid _size size self' k' sid' size' log,
    inner_loop Solve fuel self k sid _size size =
      Returned (self', k', sid', size', log) →
    memtol self = mt → dom (archive self) ⊆ K → dom (archive self') ⊆ K) as Hin.
  { clear fuel. induction fuel as [|fuel IH];
      intros self k sid _size size self' k' sid' size' log.
    - simpl. case_bool_decide; [done|]. by intros [= <- <- <- <- <-].
    - rewrite inner_loop_S. case_bool_decide; [|by intros [= <- <- <- <- <-]].
      destruct (_search _ _ _ _) as [[[[self1 k1] sid1] size1]|] eqn:Hs; [|done].
      apply _search_inv in Hs
        as (cfg & sprayed & _ & Hsp & Ha & _ & _ & _ & Hset).
      destruct (inner_loop _ _ _ _ _ _ _)
        as [[[[[self2 k2] sid2] size2] log2]| |] eqn:Hi; try done.
      intros [= <- <- <- <- <-] Hm Hd.
      apply (IH _ _ _ _ _ _ _ _ _ _ Hi).
      + destruct Hset as (_&_&_&_&_&?&_). congruence.
      + rewrite Ha, _memoize_fold. apply memo_fold_dom; [|done].
        rewrite Hm, Hsp. simpl. intros s Hs. by eapply HK. }
  induction fuel as [|fuel IH]; intros self k sid c self' k' tr.
  - simpl. case_bool_decide; [done|]. by intros [= <- <- <-].
  - rewrite outer_loop_S. case_bool_decide; [|by intros [= <- <- <-]].
    destruct (inner_loop _ _ _ _ _ _ _)
      as [[[[[self1 k1] sid1] size1] log1]| |] eqn:Hi; try done.
    cbn zeta.
    destruct (outer_loop _ _ _ _ _ _) as [[[self2 k2] tr2]| |] eqn:Ho; try done.
    intros [= <- <- <-] Hm Hd.
    apply (IH _ _ _ _ _ _ _ Ho).
    + apply inner_loop_settings in Hi as (_&_&_&_&_&?&_). congruence.
    + by apply (Hin _ _ _ _ _ _ _ _ _ _ _ Hi).
Qed.

(** X3. A call of [Search] stores nothing but what the sprays found: when
    every member a spray can return has its key in [K], the keys of the
    archive on return are among those it had and [K]. *)
Theorem Search_keys_from_sprays (K : gset coords)
    fuel self k model bounds stop monitor traj' disp' self' k' tr :
  (∀ j e s, s ∈ Solve j e → key_of (memtol self) s ∈ K) →
  Search Solve fuel self k model bounds stop monitor traj' disp' =
    Returned (self', k', tr) →
  dom (archive self') ⊆ dom (archive self) ∪ K.
Proof.
  intros HK. rewrite Search_unfold. unfold _configure.
  destruct bounds as [|b bounds]; [done|]. intros Ho.
  apply (outer_loop_bounded (dom (archive self) ∪ K) (memtol self) _
           ltac:(intros j e s Hs; apply elem_of_union_r; by eapply HK)
           _ _ _ _ _ _ _ Ho); [done|].
  simpl. apply union_subseteq_l.
Qed.

(** X4. With a negative [retry] the counter starts at 0 and the outer loop
    is not entered: [Search] configures the solver and returns at once,
    whatever the fuel, without a single spray; archive and history are
    untouched. *)
Theorem Search_negative_retry fuel self k model bounds stop monitor traj' disp' :
  retry self < 0 → bounds ≠ [] →
  ∃ self',
    Search Solve fuel self k model bounds stop monitor traj' disp' =
      Returned (self', k, []) ∧
    archive self' = archive self ∧ _allSolvers self' = _allSolvers self.
Proof.
  intros HR Hb. rewrite Search_unfold. unfold _configure.
  destruct bounds as [|b bounds]; [done|].
  rewrite bool_decide_eq_true_2 by lia.
  match goal with |- ∃ _, outer_loop _ _ ?s _ _ _ = _ ∧ _ => exists s end.
  split; [|done].
  destruct fuel; simpl; by rewrite bool_decide_eq_false_2 by lia.
Qed.

(** X5. A call of [Search] with [retry >= 0] that returns has run at least
    [max(retry, 1)] outer rounds, and at least one spray per round. *)
Theorem Search_least_work fuel self k model bounds stop monitor traj' disp' self' k' tr :
  0 ≤ retry self →
  Search Solve fuel self k model bounds stop monitor traj' disp' =
    Returned (self', k', tr) →
  (Z.to_nat (retry self) `max` 1 ≤ length tr)%nat ∧
  (length tr ≤ k' - k)%nat.
Proof.
  intros HR Hs. pose proof Hs as (Hrs & _ & _ & Hk)%Search_Returned.
  split.
  - destruct (decide (retry self = 0)) as [H0|Hne].
    + rewrite H0, bool_decide_eq_false_2 in Hrs by (intros Hx; by apply Hx).
      apply rounds_from_zero in Hrs as (r & -> & _). simpl. lia.
    + rewrite bool_decide_eq_true_2 in Hrs by done.
      pose proof (rounds_from_trailing _ _ _ Hrs ltac:(lia)).
      pose proof (trailing_le tr). lia.
  - pose proof (rounds_from_sprays _ _ _ _ Hrs). lia.
Qed.

(** X6. After a batch is memoized the keys of the archive are the keys it
    had together with the rounded coordinates of every member of the batch,
    in whatever order the members come; the size grows by the number of
    distinct new keys, so by no more than the batch has members. *)
Theorem memoize_keys self e tol :
  let batch : gset coords := list_to_set ((λ s, key_of tol s) <$> ens_allSolvers e) in
  dom (cache (_memoize self e tol)) = dom (archive self) ∪ batch ∧
  size (cache (_memoize self e tol)) =
    (size (archive self) + size (batch ∖ dom (archive self)))%nat ∧
  (size (cache (_memoize self e tol)) ≤
     size (archive self) + length (ens_allSolvers e))%nat.
Proof.
  cbn zeta.
  assert (dom (cache (_memoize self e tol)) =
            dom (archive self) ∪
            list_to_set ((λ s, key_of tol s) <$> ens_allSolvers e)) as Hd.
  { rewrite _memoize_fold. apply (memo_fold_dom_eq _ _ _ (mkMemo _ _ _)). }
  assert (size (cache (_memoize self e tol)) =
    (size (archive self) +
     size ((list_to_set ((λ s, key_of tol s) <$> ens_allSolvers e) : gset coords)
             ∖ dom (archive self)))%nat) as Hs.
  { by rewrite <- !size_dom, Hd, size_union_alt. }
  split_and!; [done | done |]. rewrite Hs.
  pose proof (subseteq_size _ _
    (subseteq_difference_l
       (list_to_set ((λ s, key_of tol s) <$> ens_allSolvers e) : gset coords)
       (dom (archive self)) _ (reflexivity _))).
  pose proof (size_list_to_set_le ((λ s, key_of tol s) <$> ens_allSolvers e)) as Hl.
  rewrite length_fmap in Hl. lia.
Qed.

(** X7. Memoizing a batch a second time changes nothing: every member is
    found in the archive, the archive stays as it is, and the size reported
    is the size before, so a spray that finds only known points is
    unproductive. *)
Theorem memoize_again self self2 e tol :
  archive self2 = cache (_memoize self e tol) →
  cache (_memoize self2 e tol) = archive self2 ∧
  info_size (info (_memoize self2 e tol)) = size (archive self2).
Proof.
  intros Ha.
  assert (cache (_memoize self2 e tol) = archive self2) as Hc.
  { rewrite _memoize_fold.
    apply (memo_fold_all_present _ _ _ (mkMemo _ _ _)). simpl.
    intros s Hs. apply elem_of_dom.
    rewrite Ha, _memoize_fold, memo_fold_dom_eq.
    apply elem_of_union_r, elem_of_list_to_set, list_elem_of_fmap. eauto. }
  split; [done|]. simpl. by rewrite Hc.
Qed.

Lemma _search_converged self k sid :
  converged Solve self → is_Some (solver self) →
  ∃ self1 sid1,
    _search Solve self k sid = Ok (self1, S k, sid1, len self) ∧
    archive self1 = archive self ∧ same_settings self self1.
Proof.
  intros Hcv [cfg Hcfg].
  destruct (_search Solve self k sid) as [[[[self1 k1] sid1] sz]|err] eqn:E.
  - pose proof (_search_inv _ _ _ _ _ _ _ E)
      as (cfg' & sprayed & Hc & Hsp & Ha & _ & _ & -> & Hset).
    pose proof (_search_Ok Solve _ _ _ _ _ _ _ E) as (_ & -> & _).
    assert (archive self1 = archive self) as Heq.
    { rewrite Ha, _memoize_fold.
      apply (memo_fold_all_present _ _ _ (mkMemo _ _ _)). simpl.
      rewrite Hsp. simpl. intros s Hs. by eapply Hcv. }
    exists self1, sid1. by rewrite Heq.
  - unfold _search, _solve in E. by rewrite Hcfg in E.
Qed.

Lemma outer_loop_converged n : ∀ fuel self k sid c,
  Z.of_nat n = retry self - c → (n + 1 ≤ fuel)%nat →
  converged Solve self → is_Some (solver self) →
  ∃ self' tr,
    outer_loop Solve fuel self k sid c = Returned (self', (k + n)%nat, tr) ∧
    archive self' = archive self ∧ length tr = n ∧
    Forall (λ r, sprays r = [len self]) tr.
Proof.
  induction n as [|n IH]; intros fuel self k sid c Hn Hf Hcv Hs.
  - exists self, []. rewrite Nat.add_0_r. split_and!; try done.
    destruct fuel; simpl; by rewrite bool_decide_eq_false_2 by lia.
  - destruct fuel as [|[|fuel]]; [lia..|].
    rewrite outer_loop_S, bool_decide_eq_true_2 by lia.
    rewrite inner_loop_S, bool_decide_eq_true_2 by lia.
    destruct (_search_converged self k sid Hcv Hs)
      as (self1 & sid1 & -> & Ha & Hset).
    assert (inner_loop Solve fuel self1 (S k) sid1 (len self) (len self) =
              Returned (self1, S k, sid1, len self, [])) as ->
      by (destruct fuel; simpl; by rewrite bool_decide_eq_false_2 by lia).
    cbn zeta. rewrite bool_decide_eq_true_2 by done.
    destruct Hset as (_&_&_&Hr&_&Hm&_&Hsol).
    destruct (IH (S fuel) self1 (S k) sid1 (c + 1)) as (self' & tr & -> & Ha' & Hl & Hall).
    + rewrite Hr. lia.
    + lia.
    + intros j e s Hjs. rewrite Ha, Hm. by eapply Hcv.
    + by rewrite Hsol.
    + eexists _, _. split_and!.
      * f_equal. f_equal. f_equal. lia.
      * congruence.
      * simpl. by rewrite Hl.
      * constructor; [done|]. by rewrite <- Ha.
Qed.

(** X8. Searching again when every point the sprays can find is already
    in the archive: with [retry = R > 0] the call returns after exactly [R]
    rounds of one spray each, for every fuel above [R], and the archive is
    the one it started with. *)
Theorem Search_converged fuel self k model bounds stop monitor traj' disp' :
  0 < retry self → bounds ≠ [] → converged Solve self →
  (Z.to_nat (retry self) + 1 ≤ fuel)%nat →
  ∃ self' tr,
    Search Solve fuel self k model bounds stop monitor traj' disp' =
      Returned (self', (k + Z.to_nat (retry self))%nat, tr) ∧
    archive self' = archive self ∧
    Z.of_nat (length tr) = retry self ∧
    Forall (λ r, sprays r = [len self]) tr.
Proof.
  intros HR Hb Hcv Hf. rewrite Search_unfold. unfold _configure.
  destruct bounds as [|b bounds]; [done|].
  rewrite bool_decide_eq_true_2 by lia.
  match goal with |- context [outer_loop _ _ ?s _ _ _] =>
    destruct (outer_loop_converged (Z.to_nat (retry self)) fuel s k 0 0)
      as (self' & tr & -> & Ha & Hl & Hall) end.
  - simpl. lia.
  - lia.
  - exact Hcv.
  - simpl. by eexists.
  - exists self', tr. split_and!; [done | done | lia | done].
Qed.

(** X9. An inverted searcher stores the negated best values: memoizing a
    batch with the inversion flag on gives the same archive as memoizing,
    with the flag off, the batch whose best values are negated. *)
Theorem memoize_inverted self self' e tol :
  archive self' = archive self → _inv self = true → _inv self' = false →
  cache (_memoize self e tol) = cache (_memoize self' (negated e) tol).
Proof.
  intros Ha Hi Hi'. apply map_eq. intros key.
  rewrite !_memoize_fold, !memo_fold_lookup. simpl. rewrite Ha, Hi, Hi'.
  destruct (archive self !! key); [done|].
  rewrite list_find_fmap. unfold compose. simpl.
  destruct (list_find _ (ens_allSolvers e)) as [[i s]|]; [|done].
  simpl. f_equal. unfold sign. ring.
Qed.

(** X10. [Coordinates()] and [Values()] have one element per archive
    entry: the keys, and the values stored under them.  [unique=True]
    changes nothing for the coordinates (keys are distinct); for the values
    it keeps the first occurrence of each, in order: no duplicates, the same
    elements. *)
Theorem Values_Coordinates self :
  length (Coordinates self false) = size (archive self) ∧
  length (Values self false) = size (archive self) ∧
  (∀ k, k ∈ Coordinates self false ↔ is_Some (archive self !! k)) ∧
  (∀ v, v ∈ Values self false ↔ ∃ k, archive self !! k = Some v) ∧
  Coordinates self true = Coordinates self false ∧
  NoDup (Values self true) ∧
  Values self true `sublist_of` Values self false ∧
  (∀ v, v ∈ Values self true ↔ v ∈ Values self false).
Proof.
  unfold Coordinates, Values. cbn zeta.
  destruct (unique_from_spec (map_to_list (archive self)).*2 ∅)
    as (Hnd & Hel & Hsub).
  split_and!; try done.
  - by rewrite length_fmap, length_map_to_list.
  - by rewrite length_fmap, length_map_to_list.
  - intros k. rewrite list_elem_of_fmap. split.
    + intros ([k' v] & -> & Hkv%elem_of_map_to_list). by exists v.
    + intros [v Hv]. exists (k, v). split; [done|]. by apply elem_of_map_to_list.
  - apply elem_of_map_values.
  - apply unique_from_NoDup; [apply NoDup_fst_map_to_list|].
    intros x _. apply not_elem_of_empty.
  - intros v. rewrite Hel. split; [tauto|]. intros ?. split; [done|].
    apply not_elem_of_empty.
Qed.

(** X11. [_summarize] raises [ValueError] on an empty archive.  On a
    non-empty one it prints the name "min" or "max" by the inversion flag,
    the extreme value of the whole archive (least, or greatest when
    inverted), a count of minima between 1 and the archive size, the archive
    size as [pts] and as [size], and a number of distinct values between 1
    and the archive size. *)
Theorem summarize_report self :
  (archive self = ∅ → _summarize self = Err ValueError) ∧
  (archive self ≠ ∅ →
   ∃ r, _summarize self = Ok r ∧
     sum_name r = (if _inv self then "max" else "min")%string ∧
     extreme_of (_inv self) (archive self) (sum_extreme r) ∧
     sum_pts r = size (archive self) ∧ sum_size r = size (archive self) ∧
     (1 ≤ sum_count r ≤ size (archive self))%nat ∧
     (1 ≤ sum_values r ≤ size (archive self))%nat).
Proof.
  split.
  - intros He. unfold _summarize. by rewrite (Minima_empty_archive _ _ He).
  - intros Hne. unfold _summarize.
    destruct (Minima_nonempty_archive self None Hne) as (x & Hx & ->).
    set (P := λ kv : coords * Qc, pyround kv.2 (default (tol self) None) =
                                  pyround x (default (tol self) None)).
    set (mins := filter P (archive self)).
    assert (mins ⊆ archive self) as Hsub by apply map_filter_subseteq.
    assert (∃ k, mins !! k = Some x) as [kx Hkx].
    { destruct Hx as [[k Hk] _]. exists k. by apply map_lookup_filter_Some. }
    assert (mins ≠ ∅) as Hmne.
    { intros He. by rewrite He, lookup_empty in Hkx. }
    assert (extreme_of (_inv self) mins x) as Hxm.
    { split; [by exists kx|]. intros k v Hv. destruct Hx as [_ Hle].
      apply (Hle k). by eapply lookup_weaken. }
    assert ((map_to_list mins).*2 ≠ []) as Hl by by rewrite map_values_nil.
    assert (∃ y, (if _inv self then py_max else py_min) (map_to_list mins).*2 = Ok y
                 ∧ extreme_of (_inv self) mins y) as (y & -> & Hy).
    { destruct (_inv self).
      - destruct (py_max_Ok _ Hl) as (y & -> & Hin & Hle). exists y. split; [done|].
        split; [by apply elem_of_map_values|].
        intros k v Hk. apply Hle, elem_of_map_values. eauto.
      - destruct (py_min_Ok _ Hl) as (y & -> & Hin & Hle). exists y. split; [done|].
        split; [by apply elem_of_map_values|].
        intros k v Hk. apply Hle, elem_of_map_values. eauto. }
    rewrite <- (extreme_of_unique _ _ _ _ Hxm Hy).
    eexists. split; [done|]. simpl.
    assert (size (archive self) ≠ 0)%nat as Hs0 by by rewrite map_size_empty_iff.
    pose proof (map_subseteq_size _ _ Hsub).
    assert (size mins ≠ 0)%nat by by rewrite map_size_empty_iff.
    unfold Coordinates, Values. cbn zeta.
    rewrite (size_list_to_set _ (NoDup_fst_map_to_list _)).
    rewrite !length_fmap, !length_map_to_list.
    pose proof (size_list_to_set_le (map_to_list (archive self)).*2) as Hv.
    rewrite length_fmap, length_map_to_list in Hv.
    assert (size (list_to_set (map_to_list (archive self)).*2 : gset Qc) ≠ 0)%nat.
    { rewrite size_non_empty_iff. destruct Hx as [[k Hk] _].
      intros He. apply (not_elem_of_empty (C:=gset Qc) x). rewrite <- He.
      apply elem_of_list_to_set, elem_of_map_values. eauto. }
    split_and!; try done; lia.
Qed.

(** X12. After [Reset] the history is empty, the archive is the one passed
    or an empty one, and the inversion flag changes only when one is passed.
    After [Reset()] without an archive, [Minima] and [_summarize] raise
    [ValueError]; with trajectory capture on, [Trajectories] returns three
    empty sequences; and resetting again changes nothing. *)
Theorem Reset_clears self a inv :
  let self' := Reset self a inv in
  archive self' = default ∅ a ∧ _allSolvers self' = [] ∧
  _inv self' = default (_inv self) inv ∧
  (a = None → Minima self' None = Err ValueError ∧
              _summarize self' = Err ValueError) ∧
  (traj self = true → Trajectories read_trajectories self' = Ok ([], [], [])) ∧
  Reset self' None None = Reset self None inv.
Proof.
  cbn zeta. split_and!; try done.
  - intros ->. split; [by apply Minima_empty_archive|].
    unfold _summarize. by rewrite Minima_empty_archive.
  - intros Ht. unfold Trajectories. simpl. by rewrite Ht.
Qed.

Abbreviation read_seeker s := (read_trajectories (FromMonitor (seeker_stepmon s))).

Abbreviation traj_step acc seeker :=
  (match acc with
   | Err e => Err e
   | Ok acc =>
       match read_seeker seeker with
       | Err e => Err e
       | Ok values => Ok (extend acc values)
       end
   end).

Lemma traj_fold_Err (seekers : list Seeker) err :
  fold_left (λ acc seeker, traj_step acc seeker) seekers (Err err) = Err err.
Proof. by induction seekers. Qed.

Lemma traj_fold_Ok (seekers : list Seeker) : ∀ vs acc,
  Forall2 (λ s v, read_seeker s = Ok v) seekers vs →
  fold_left (λ acc seeker, traj_step acc seeker) seekers (Ok acc) =
    Ok (acc.1.1 ++ concat ((λ v, v.1.1) <$> vs),
        acc.1.2 ++ concat ((λ v, v.1.2) <$> vs),
        acc.2 ++ concat ((λ v, v.2) <$> vs)).
Proof.
  induction seekers as [|s seekers IH]; intros vs acc Hall.
  - apply Forall2_nil_inv_l in Hall as ->. simpl. rewrite !app_nil_r.
    by destruct acc as [[??]?].
  - apply Forall2_cons_inv_l in Hall as (v & vs' & Hv & Hall & ->).
    simpl. rewrite Hv, (IH _ _ Hall). unfold extend. simpl.
    by rewrite <- !app_assoc.
Qed.

Lemma traj_fold_first_Err (pre post : list Seeker) s err : ∀ acc,
  Forall (λ s, ∃ v, read_seeker s = Ok v) pre →
  read_seeker s = Err err →
  fold_left (λ acc seeker, traj_step acc seeker) (pre ++ s :: post) (Ok acc) =
    Err err.
Proof.
  induction pre as [|p pre IH]; intros acc Hpre Hs; simpl.
  - rewrite Hs. apply traj_fold_Err.
  - apply Forall_cons in Hpre as [[v Hv] Hpre]. rewrite Hv. by apply IH.
Qed.

(** X13. With trajectory capture on, [Trajectories] reads the monitor of
    every member of every captured ensemble, in order: when all reads
    succeed it returns the concatenated steps, parameters and costs; when a
    read fails, the error of the first failing read is raised. *)
Theorem Trajectories_captured self :
  traj self = true →
  let seekers := concat (ens_allSolvers <$> _allSolvers self) in
  (∀ vs, Forall2 (λ s v, read_seeker s = Ok v) seekers vs →
     Trajectories read_trajectories self =
       Ok (concat ((λ v, v.1.1) <$> vs), concat ((λ v, v.1.2) <$> vs),
           concat ((λ v, v.2) <$> vs))) ∧
  (∀ pre s post err,
     seekers = pre ++ s :: post →
     Forall (λ s, ∃ v, read_seeker s = Ok v) pre →
     read_seeker s = Err err →
     Trajectories read_trajectories self = Err err).
Proof.
  intros Ht. cbn zeta. unfold Trajectories. rewrite Ht. simpl. split.
  - intros vs Hall. by rewrite (traj_fold_Ok _ _ _ Hall).
  - intros pre s post err -> Hpre Hs. by apply traj_fold_first_Err.
Qed.

(** X14. With trajectory capture off, [Trajectories] never raises
    [AttributeError]; and when the configured solver's monitor names a log
    file, it returns what reading that file returns, or raises what it
    raises, an [AttributeError] apart. *)
Theorem Trajectories_from_file self :
  traj self = false →
  Trajectories read_trajectories self ≠ Err AttributeError ∧
  (∀ cfg filename,
     solver self = Some cfg → _filename (ens_stepmon cfg) = Some filename →
     read_trajectories (FromFile filename) ≠ Err AttributeError →
     Trajectories read_trajectories self = read_trajectories (FromFile filename)).
Proof.
  intros Ht. unfold Trajectories. rewrite Ht. simpl. split.
  - destruct (solver self) as [cfg|]; [|done].
    destruct (_filename _) as [f|]; [|done].
    by destruct (read_trajectories _) as [r|[]].
  - intros cfg f -> -> Hr. by destruct (read_trajectories _) as [r|[]].
Qed.

Lemma inner_loop_not_Raised fuel : ∀ self k sid _size size err,
  is_Some (solver self) →
  inner_loop Solve fuel self k sid _size size ≠ Raised err.
Proof.
  induction fuel as [|fuel IH]; intros self k sid _size size err [cfg Hc].
  - simpl. by case_bool_decide.
  - rewrite inner_loop_S. case_bool_decide; [|done].
    destruct (_search Solve self k sid) as [[[[self1 k1] sid1] size1]|e] eqn:Hs.
    + pose proof (_search_Ok Solve _ _ _ _ _ _ _ Hs) as (_ & _ & _ & Hsol & _).
      specialize (IH self1 k1 sid1 size size1 err ltac:(rewrite Hsol, Hc; by eexists)).
      by destruct (inner_loop _ _ _ _ _ _ _) as [[[[[??]?]?]?]| |].
    + unfold _search, _solve in Hs. by rewrite Hc in Hs.
Qed.

Lemma outer_loop_not_Raised fuel : ∀ self k sid c err,
  is_Some (solver self) →
  outer_loop Solve fuel self k sid c ≠ Raised err.
Proof.
  induction fuel as [|fuel IH]; intros self k sid c err Hc.
  - simpl. by case_bool_decide.
  - rewrite outer_loop_S. case_bool_decide; [|done].
    pose proof (inner_loop_not_Raised fuel self k sid (-1) (len self) err Hc) as Hi.
    destruct (inner_loop _ _ _ _ _ _ _)
      as [[[[[self1 k1] sid1] size1] log1]|e|] eqn:Hi'; [| |done].
    + pose proof (inner_loop_Returned Solve _ _ _ _ _ _ _ _ _ _ Hi')
        as (_ & _ & _ & Hsol & _). cbn zeta.
      match goal with |- context [outer_loop _ _ _ _ _ ?c'] =>
        specialize (IH self1 k1 sid1 c' err ltac:(by rewrite Hsol)) end.
      by destruct (outer_loop _ _ _ _ _ _) as [[[??]?]| |].
    + intros [= ->]. by eapply inner_loop_not_Raised.
Qed.

(** X15. With ensemble runs that return, [Search] raises only on empty
    [bounds], and then [ValueError], before any spray: [_configure] has set
    [solver] whenever a spray reads it. *)
Theorem Search_raises_iff fuel self k model bounds stop monitor traj' disp' err :
  Search Solve fuel self k model bounds stop monitor traj' disp' = Raised err ↔
  bounds = [] ∧ err = ValueError.
Proof.
  rewrite Search_unfold. unfold _configure. destruct bounds as [|b bounds].
  - split; [by intros [= <-] | by intros [_ ->]].
  - split; [|by intros [? _]]. intros Hr. exfalso.
    eapply outer_loop_not_Raised; [|exact Hr]. simpl. by eexists.
Qed.

(** X16. When [bounds] is not empty and the keys the sprays can produce lie
    in a finite set [K], [Search] returns, with the same result for every
    fuel large enough, and the archive has grown by at most the size of
    [K]. *)
Theorem Search_returns_finite_keys (K : gset coords)
    self k model bounds stop monitor traj' disp' :
  bounds ≠ [] →
  (∀ j e s, s ∈ Solve j e → key_of (memtol self) s ∈ K) →
  ∃ fuel self' k' tr,
    (∀ fuel', (fuel ≤ fuel')%nat →
       Search Solve fuel' self k model bounds stop monitor traj' disp' =
         Returned (self', k', tr)) ∧
    (size (archive self') ≤ size (archive self) + size K)%nat.
Proof.
  intros Hb HK.
  destruct (Search_terminates Solve (dom (archive self) ∪ K) (memtol self)
              ltac:(intros j e s Hs; apply elem_of_union_r; by eapply HK)
              self k model bounds stop monitor traj' disp' Hb eq_refl
              (union_subseteq_l _ _)) as (fuel & [[self' k'] tr] & Hs).
  exists fuel, self', k', tr. split.
  - intros fuel' Hle. revert Hs. rewrite !Search_unfold.
    destruct (_configure _ _ _ _ _); [|done].
    intros Ho. by apply (outer_loop_mono _ _ _ _ _ _ _ _ Ho).
  - revert Hs. rewrite Search_unfold. unfold _configure.
    destruct bounds as [|b bounds]; [done|]. intros Ho.
    pose proof (outer_loop_bounded (dom (archive self) ∪ K) (memtol self) _
           ltac:(intros j e s Hs; apply elem_of_union_r; by eapply HK)
           _ _ _ _ _ _ _ Ho eq_refl (union_subseteq_l _ _)) as Hd.
    apply subseteq_size in Hd. rewrite size_dom in Hd.
    pose proof (size_union_alt (dom (archive self)) K) as Hu.
    pose proof (subseteq_size (K ∖ dom (archive self)) K
                  (subseteq_difference_l _ _ _ (reflexivity _))).
    rewrite size_dom in Hu. lia.
Qed.

(** X17. A searcher built without an archive has nothing to report:
    [Minima] and [_summarize] raise [ValueError], [Values] and [Coordinates]
    are empty, and [Trajectories] returns three empty sequences with
    capture on and raises the usage error with capture off. *)
Theorem fresh_searcher_reports (npts retry tol memtol : Z) (traj disp : bool) tol' unique :
  let self : Searcher Model Stop := __init__ npts retry tol memtol None traj disp in
  Minima self tol' = Err ValueError ∧
  _summarize self = Err ValueError ∧
  Values self unique = [] ∧ Coordinates self unique = [] ∧
  Trajectories read_trajectories self =
    (if traj then Ok ([], [], [])
     else Err (RuntimeError "a LoggingMonitor or UseTrajectories is required")).
Proof.
  cbn zeta. split_and!.
  - by apply Minima_empty_archive.
  - unfold _summarize. by rewrite Minima_empty_archive.
  - unfold Values. simpl. rewrite map_to_list_empty. by destruct unique.
  - unfold Coordinates. simpl. rewrite map_to_list_empty. by destruct unique.
  - unfold Trajectories. simpl. by destruct traj.
Qed.

(** X18. The minima of the minima are the minima: resetting a searcher
    onto the mapping [Minima(tol)] returned and asking again returns the same
    mapping. *)
Theorem Minima_of_Minima self tol' m :
  Minima self tol' = Ok m →
  Minima (Reset self (Some m) None) tol' = Ok m.
Proof.
  intros Hm. pose proof (Minima_Ok_inv _ _ _ Hm) as Hne.
  destruct (Minima_nonempty_archive self tol' Hne) as (x & Hx & Hm').
  rewrite Hm' in Hm. injection Hm as <-.
  set (P := λ kv : coords * Qc, pyround kv.2 (default (tol self) tol') =
                                pyround x (default (tol self) tol')).
  set (mins := filter P (archive self)).
  assert (mins ⊆ archive self) as Hsub by apply map_filter_subseteq.
  assert (∃ k, mins !! k = Some x) as [kx Hkx].
  { destruct Hx as [[k Hk] _]. exists k. by apply map_lookup_filter_Some. }
  assert (mins ≠ ∅) as Hmne.
  { intros He. by rewrite He, lookup_empty in Hkx. }
  assert (extreme_of (_inv self) mins x) as Hxm.
  { split; [by exists kx|]. intros k v Hv. destruct Hx as [_ Hle].
    apply (Hle k). by eapply lookup_weaken. }
  destruct (Minima_nonempty_archive (Reset self (Some mins) None) tol' Hmne)
    as (y & Hy & ->). simpl in *.
  rewrite <- (extreme_of_unique _ _ _ _ Hxm Hy). f_equal.
  apply map_eq. intros k. apply option_eq. intros v.
  rewrite !map_lookup_filter_Some. fold P. unfold mins.
  rewrite map_lookup_filter_Some. tauto.
Qed.

End Further.

(** ** The scenario again *)

Lemma Search_settings_witness :
  ∃ self' k' tr,
    Search Demo.Solve 10 (Demo.searcher 1) 0 tt Demo.bounds None None (Some true) None =
      Returned (self', k', tr) ∧
    traj self' = true ∧ disp self' = false ∧ retry self' = 1.
Proof.
  destruct (Search _ _ _ _ _ _ _ _ _ _) as [[[s k] tr]|err|] eqn:E.
  - exists s, k, tr. split; [done|].
    destruct (Search_settings Demo.Solve _ _ _ _ _ _ _ _ _ _ _ _ E)
      as (Ht & Hd & _ & Hr & _).
    by split_and!.
  - vm_compute in E. discriminate.
  - vm_compute in E. discriminate.
Defined.

Lemma Search_history_witness :
  ∃ self' k' tr,
    Search Demo.Solve 10 (Demo.searcher 1) 0 tt Demo.bounds None None (Some true) None =
      Returned (self', k', tr) ∧
    length (_allSolvers self') = k'.
Proof.
  destruct (Search _ _ _ _ _ _ _ _ _ _) as [[[s k] tr]|err|] eqn:E.
  - exists s, k, tr. split; [done|].
    destruct (Search_history Demo.Solve _ _ _ _ _ _ _ _ _ _ _ _ E)
      as (ran & -> & Hl & _).
    simpl. lia.
  - vm_compute in E. discriminate.
  - vm_compute in E. discriminate.
Defined.

Lemma Search_keys_from_sprays_witness :
  ∃ self' k' tr,
    Demo.run 1 = Returned (self', k', tr) ∧
    dom (archive self') ⊆ dom (archive (Demo.searcher 1)) ∪ Demo.keys.
Proof.
  unfold Demo.run.
  destruct (Search _ _ _ _ _ _ _ _ _ _) as [[[s k] tr]|err|] eqn:E.
  - exists s, k, tr. split; [done|].
    apply (Search_keys_from_sprays Demo.Solve Demo.keys 10 (Demo.searcher 1)
             0 tt Demo.bounds None None None None s k tr Demo_Solve_keys E).
  - vm_compute in E. discriminate.
  - vm_compute in E. discriminate.
Defined.

Lemma Search_negative_retry_witness :
  ∃ self',
    Search Demo.Solve 0 (Demo.searcher (-1)) 0 tt Demo.bounds None None None None =
      Returned (self', 0%nat, []) ∧
    archive self' = archive (Demo.searcher (-1)) ∧
    _allSolvers self' = _allSolvers (Demo.searcher (-1)).
Proof.
  apply (Search_negative_retry Demo.Solve 0 (Demo.searcher (-1)) 0 tt Demo.bounds
           None None None None); [reflexivity | done].
Defined.

Lemma Search_least_work_witness :
  ∃ self' k' tr,
    Demo.run 1 = Returned (self', k', tr) ∧
    (1 ≤ length tr)%nat ∧ (length tr ≤ k')%nat.
Proof.
  unfold Demo.run.
  destruct (Search _ _ _ _ _ _ _ _ _ _) as [[[s k] tr]|err|] eqn:E.
  - exists s, k, tr. split; [done|].
    destruct (Search_least_work Demo.Solve 10 (Demo.searcher 1) 0 tt Demo.bounds
                None None None None s k tr ltac:(simpl; lia) E) as [H1 H2].
    simpl in H1. lia.
  - vm_compute in E. discriminate.
  - vm_compute in E. discriminate.
Defined.

Lemma memoize_again_witness :
  let self := Demo.searcher 1 in
  let e := Demo.ensemble [Demo.seeker_at (Demo.qc 1 8) (Demo.qc 1 1);
                          Demo.seeker_at (Demo.qc 3 16) (Demo.qc 2 1)] in
  let self2 := Reset self (Some (cache (_memoize self e 1))) None in
  cache (_memoize self2 e 1) = archive self2 ∧
  info_size (info (_memoize self2 e 1)) = size (archive self2).
Proof.
  intros self e self2. apply (memoize_again self self2 e 1). reflexivity.
Defined.

Lemma Demo_settled_converged : converged Demo.Solve Demo.settled.
Proof.
  intros j e s. destruct j as [|[|j]]; simpl; rewrite ?elem_of_cons, elem_of_nil;
    intros H; repeat (destruct H as [->|H]); try done; compute_done.
Qed.

Lemma Search_converged_witness :
  ∃ self' tr,
    Search Demo.Solve 3 Demo.settled 0 tt Demo.bounds None None None None =
      Returned (self', 2%nat, tr) ∧
    archive self' = archive Demo.settled ∧ length tr = 2%nat.
Proof.
  destruct (Search_converged Demo.Solve 3 Demo.settled 0 tt Demo.bounds
              None None None None)
    as (self' & tr & Hs & Ha & Hl & _);
    [reflexivity | done | exact Demo_settled_converged | simpl; lia |].
  exists self', tr. split_and!; [exact Hs | exact Ha |].
  simpl in Hl. lia.
Defined.

Lemma memoize_inverted_witness :
  let e := Demo.ensemble [Demo.seeker_at (Demo.qc 1 8) (Demo.qc 1 1);
                          Demo.seeker_at (Demo.qc 1 2) (Demo.qc 5 1)] in
  cache (_memoize (Reset (Demo.searcher 1) None (Some true)) e 1) =
  cache (_memoize (Demo.searcher 1) (negated e) 1).
Proof.
  intros e.
  apply (memoize_inverted (Reset (Demo.searcher 1) None (Some true))
           (Demo.searcher 1) e 1); reflexivity.
Defined.

Lemma summarize_report_witness :
  ∃ r, _summarize Demo.stocked = Ok r ∧
       sum_name r = "min"%string ∧ sum_pts r = 2%nat ∧ sum_size r = 2%nat.
Proof.
  destruct (proj2 (summarize_report Demo.stocked))
    as (r & Hr & Hn & _ & Hp & Hs & _).
  { simpl. apply insert_non_empty. }
  exists r. split_and!; [exact Hr | exact Hn | |].
  - rewrite Hp. compute_done.
  - rewrite Hs. compute_done.
Defined.

Lemma Reset_clears_witness :
  Minima (Reset Demo.stocked None None) None = Err ValueError ∧
  Trajectories Demo.read_one (Reset Demo.traced None None) = Ok ([], [], []).
Proof.
  split.
  - destruct (Reset_clears Demo.read_one Demo.stocked None None)
      as (_ & _ & _ & Hm & _).
    by destruct (Hm eq_refl).
  - destruct (Reset_clears Demo.read_one Demo.traced None None)
      as (_ & _ & _ & _ & Ht & _).
    by apply Ht.
Defined.

Lemma Trajectories_captured_witness :
  Trajectories Demo.read_one Demo.traced =
    Ok ([0; 0], [[Demo.qc 1 8]; [Demo.qc 1 8]], [Demo.qc 1 1; Demo.qc 1 1]).
Proof.
  rewrite (proj1 (Trajectories_captured Demo.read_one Demo.traced eq_refl)
             [([0], [[Demo.qc 1 8]], [Demo.qc 1 1]);
              ([0], [[Demo.qc 1 8]], [Demo.qc 1 1])]); [reflexivity|].
  simpl. by repeat constructor.
Defined.

Lemma Trajectories_from_file_witness :
  Trajectories Demo.read Demo.configured ≠ Err AttributeError.
Proof.
  apply (proj1 (Trajectories_from_file Demo.read Demo.configured eq_refl)).
Defined.

Lemma Search_returns_finite_keys_witness :
  ∃ fuel self' k' tr,
    (∀ fuel', (fuel ≤ fuel')%nat →
       Search Demo.Solve fuel' (Demo.searcher 1) 0 tt Demo.bounds None None None None =
         Returned (self', k', tr)) ∧
    (size (archive self') ≤ size (archive (Demo.searcher 1)) + size Demo.keys)%nat.
Proof.
  apply (Search_returns_finite_keys Demo.Solve Demo.keys (Demo.searcher 1) 0 tt
           Demo.bounds None None None None); [done|]. apply Demo_Solve_keys.
Defined.

Lemma Minima_of_Minima_witness :
  ∃ m, Minima Demo.stocked None = Ok m ∧
       Minima (Reset Demo.stocked (Some m) None) None = Ok m.
Proof.
  destruct (Minima Demo.stocked None) as [m|err] eqn:E.
  - exists m. split; [done|]. by apply Minima_of_Minima.
  - vm_compute in E. discriminate.
Defined.
